(** * QR_Code_Gen: the logo compositor of [generate_qr_code.py]

    A shallow embedding of [generate_qr_code_for_link] and of the library
    calls it makes, followed by the properties of the design document.

    - Python [int] is [Z]; [//] is [Z.div] (both floor), with the
      [ZeroDivisionError] of a zero divisor written out.
    - Python [float] is IEEE 754 binary64, taken bit for bit from the
      Standard Library's [SpecFloat] ([prec = 53], [emax = 1024]): the
      products [min(w, h) * logo_size] and [1.05 * logo_width] and the
      quotients of [Image.thumbnail] are rounded to nearest even exactly as
      CPython rounds them.
    - Exceptions are a [result] type; the file system is explicit state:
      paths are resolved to files, so that two paths may name one file,
      and [img.save] finds its writer, opens the file and writes it in the
      order Pillow does, with what each failure leaves behind.
    - The two libraries (qrcode, and Pillow from 9.1, where
      [Image.Resampling] appears) enter through what the program observes
      of them:
      the argument checks of [qrcode.QRCode], the size computation of
      Pillow's [Image.thumbnail], the size check of [Image.resize] and
      [Image.new], the region written by [Image.paste], and the steps of
      [Image.save].  The module matrix of the code, the resampling filter,
      the per-pixel alpha blend and the writers of the image formats are
      parameters of the development.
    - The line printed on success is not modelled. *)

From Stdlib Require Import ZArith QArith Qabs Lia Bool.
From Stdlib Require Import Floats.SpecFloat.
From stdpp Require Import gmap strings.

Local Open Scope Z_scope.

(** ** Exceptions *)

Inductive exn :=
| ValueError
| OverflowError
| ZeroDivisionError
| FileNotFoundError
| PermissionError
| UnidentifiedImageError
| DataOverflowError
| KeyError
| OSError.

Inductive result (A : Type) :=
| Ok (a : A)
| Err (e : exn).
Arguments Ok {A} a.
Arguments Err {A} e.

Definition rbind {A B} (m : result A) (k : A -> result B) : result B :=
  match m with
  | Ok a => k a
  | Err e => Err e
  end.

#[global] Instance result_ret : MRet result := fun A a => Ok a.
#[global] Instance result_bind : MBind result := fun A B k m => rbind m k.

Definition is_ok {A} (m : result A) : bool :=
  match m with Ok _ => true | Err _ => false end.

(** The error kinds of the design document, as classes of Python
    exceptions: a [ValueError] or [OverflowError] reports an invalid numeric
    parameter; the three exceptions of [Image.open] report a logo that
    cannot be loaded. *)
Definition ConfigurationError (e : exn) : bool :=
  match e with ValueError | OverflowError => true | _ => false end.

Definition ResourceLoadError (e : exn) : bool :=
  match e with
  | FileNotFoundError | PermissionError | UnidentifiedImageError => true
  | _ => false
  end.

(** ** Python floats: binary64 *)

Module Float.

Definition prec : Z := 53.
Definition emax : Z := 1024.

Definition float := spec_float.

Definition mul : float -> float -> float := SFmul prec emax.
Definition div : float -> float -> float := SFdiv prec emax.
Definition sub : float -> float -> float := SFsub prec emax.
Definition abs : float -> float := SFabs.
Definition ltb : float -> float -> bool := SFltb.
Definition leb : float -> float -> bool := SFleb.

Definition zero : float := S754_zero false.

Definition is_zero (f : float) : bool :=
  match f with S754_zero _ => true | _ => false end.

(** [float(n)] for an [int]: the nearest double, [OverflowError] beyond the
    range. *)
Definition of_int (n : Z) : result float :=
  match binary_normalize prec emax n 0 false with
  | S754_infinity _ => Err OverflowError
  | f => Ok f
  end.

(** The signed integer mantissa of a finite float. *)
Definition signed (s : bool) (m : positive) : Z :=
  if s then Z.neg m else Z.pos m.

(** [math.floor], [math.ceil] and [int] of a float: [m * 2^e] rounded down,
    up, and toward zero.  [Z.shiftl v e] is [v * 2^e] for [0 <= e] and the
    floor of [v / 2^(-e)] otherwise. *)
Definition floor (f : float) : result Z :=
  match f with
  | S754_zero _ => Ok 0
  | S754_finite s m e => Ok (Z.shiftl (signed s m) e)
  | S754_infinity _ => Err OverflowError
  | S754_nan => Err ValueError
  end.

Definition ceil (f : float) : result Z :=
  match f with
  | S754_zero _ => Ok 0
  | S754_finite s m e => Ok (- Z.shiftl (- signed s m) e)
  | S754_infinity _ => Err OverflowError
  | S754_nan => Err ValueError
  end.

Definition to_int (f : float) : result Z :=
  match f with
  | S754_zero _ => Ok 0
  | S754_finite s m e =>
      Ok (if s then - Z.shiftl (Z.pos m) e else Z.shiftl (Z.pos m) e)
  | S754_infinity _ => Err OverflowError
  | S754_nan => Err ValueError
  end.

(** [a / b] on floats raises on a zero divisor. *)
Definition truediv (a b : float) : result float :=
  if is_zero b then Err ZeroDivisionError else Ok (div a b).

(** [a / b] on ints: both operands are converted and the quotient rounded
    once (CPython's path for operands that are exact doubles). *)
Definition int_truediv (a b : Z) : result float :=
  if b =? 0 then Err ZeroDivisionError
  else fa ← of_int a; fb ← of_int b; Ok (div fa fb).

(** [n * f] and [f * n] with an int [n]. *)
Definition int_mul (n : Z) (f : float) : result float :=
  fn ← of_int n; Ok (mul fn f).

Definition mul_int (f : float) (n : Z) : result float :=
  fn ← of_int n; Ok (mul f fn).

(** [n / f] with an int [n]. *)
Definition int_div (n : Z) (f : float) : result float :=
  fn ← of_int n; truediv fn f.

(** The literal [1.05]: the double nearest to 21/20. *)
Definition lit_1_05 : float := S754_finite false 4728779608739021 (-52).

(** The literal [0.25], default of [--logo_size]. *)
Definition lit_0_25 : float := S754_finite false 4503599627370496 (-54).

End Float.

(** [a // b] on ints. *)
Definition floordiv (a b : Z) : result Z :=
  if b =? 0 then Err ZeroDivisionError else Ok (a / b).

(** ** Images *)

Record pixel := RGBA { red : Z; green : Z; blue : Z; alpha : Z }.

(** A raster in mode RGBA: its size and its pixel at each coordinate (read
    only inside the size). *)
Record Image := mkImage { width : Z; height : Z; px : Z -> Z -> pixel }.

Definition size (im : Image) : Z * Z := (width im, height im).

(** [Image.new("RGB", size, color).convert("RGBA")]: a solid opaque
    rectangle; Pillow refuses a negative size. *)
Definition Image_new (w h : Z) (color : Z * Z * Z) : result Image :=
  if (w <? 0) || (h <? 0) then Err ValueError
  else
    let '(r, g, b) := color in
    Ok (mkImage w h (fun _ _ => RGBA r g b 255)).

(** The size [Image.thumbnail] settles on.  In Pillow (PIL/Image.py, inside
    [thumbnail], with [provided_size] the floor of the requested size):
<<
    def round_aspect(number, key):
        return max(min(math.floor(number), math.ceil(number), key=key), 1)

    x, y = provided_size
    if x >= self.width and y >= self.height:
        return None

    aspect = self.width / self.height
    if x / y >= aspect:
        x = round_aspect(y * aspect, key=lambda n: abs(aspect - n / y))
    else:
        y = round_aspect(
            x / aspect, key=lambda n: 0 if n == 0 else abs(aspect - x / n)
        )
    return x, y
>>
    [min] evaluates [key] on the floor, then on the ceiling, and keeps the
    floor unless the key of the ceiling is strictly smaller.  Nothing guards
    [x / y] against [y = 0]. *)
Definition round_aspect (number : Float.float) (key : Z -> result Float.float)
  : result Z :=
  lo ← Float.floor number;
  hi ← Float.ceil number;
  klo ← key lo;
  khi ← key hi;
  Ok (Z.max (if Float.ltb khi klo then hi else lo) 1).

Definition preserve_aspect_ratio (w h : Z) (x y : Z) : result (option (Z * Z)) :=
  if (x >=? w) && (y >=? h) then Ok None
  else
    aspect ← Float.int_truediv w h;
    xy ← Float.int_truediv x y;
    if Float.leb aspect xy then
      number ← Float.int_mul y aspect;
      x' ← round_aspect number
              (fun n => q ← Float.int_truediv n y;
                        Ok (Float.abs (Float.sub aspect q)));
      Ok (Some (x', y))
    else
      number ← Float.int_div x aspect;
      y' ← round_aspect number
              (fun n => if n =? 0 then Ok Float.zero
                        else q ← Float.int_truediv x n;
                             Ok (Float.abs (Float.sub aspect q)));
      Ok (Some (x, y')).

Section Program.

(** The resampling filter: the pixel at a coordinate of the image resized to
    a given size ([Image.Resampling.LANCZOS]). *)
Variable resample : Image -> Z -> Z -> Z -> Z -> pixel.

(** The alpha blend of [Image.paste] with a mask: the pixel already there,
    the pixel pasted, whose alpha is the mask. *)
Variable blend : pixel -> pixel -> pixel.

(** What [add_data], [make(fit=True)], [make_image] and [convert("RGBA")]
    produce from the link, the version, the module size, the border and the
    two colours, once the constructor has accepted its arguments. *)
Variable render : string -> Z -> Z -> Z -> string -> string -> result Image.

(** [Image.resize(size, resample)]: a new raster of the requested size,
    filled by the filter; the core raises [ValueError] ("height and width
    must be > 0") for a side below one pixel. *)
Definition resize (im : Image) (w h : Z) : result Image :=
  if (w <? 1) || (h <? 1) then Err ValueError
  else Ok (mkImage w h (resample im w h)).

(** [Image.thumbnail(size, resample)], in place.  After the size:
<<
    preserved_size = preserve_aspect_ratio()
    if preserved_size is None:
        return
    final_size = preserved_size
    ...
    if self.size != final_size:
        im = self.resize(final_size, resample, box=box, reducing_gap=reducing_gap)
>>
    ([draft], called in between, does nothing on an image that comes from
    [convert]).  The logo after the call is the value returned here. *)
Definition thumbnail (im : Image) (x y : Z) : result Image :=
  final ← preserve_aspect_ratio (width im) (height im) x y;
  match final with
  | None => Ok im
  | Some (w, h) =>
      if (width im =? w) && (height im =? h) then Ok im else resize im w h
  end.

(** [img.paste(src, (x, y), src)], in place: the box is [src]'s size placed
    at [(x, y)]; inside it each pixel of the canvas is blended with the
    pixel of [src] above it, under [src]'s alpha; the canvas keeps its size,
    and the part of the box outside the canvas is clipped (a negative
    offset is allowed).  The canvas after the call is the value returned. *)
Definition paste (img src : Image) (pos : Z * Z) : Image :=
  let '(x0, y0) := pos in
  mkImage (width img) (height img)
    (fun x y =>
       if (x0 <=? x) && (x <? x0 + width src) && (y0 <=? y) && (y <? y0 + height src)
       then blend (px img x y) (px src (x - x0) (y - y0))
       else px img x y).

(** ** The file system *)

(** What a file holds, as far as the program can tell: an image, with the
    raster that [Image.open(path).convert("RGBA")] makes of it; something
    that is not an image (other data, or no data at all); or data that may
    not be read. *)
Inductive file :=
| ImageFile (im : Image)
| OtherFile
| Unreadable.

(** Files have an identity of their own, a label that all the paths leading
    to one file share: [logo.png] and [./logo.png], a symbolic link and its
    target, two hard links.  A path that names no file yet has the identity
    of the file that would be created there.  [resolve] takes a path to the
    identity; [files] gives the files that exist; [unwritable] gives the
    identities that [open(path, "w+b")] refuses, each with the error it
    raises ([PermissionError] for a protected file or directory,
    [FileNotFoundError] for a missing directory, and so on). *)
Definition fid := string.

Record FS := mkFS {
  resolve : string -> fid;
  files : gmap fid file;
  unwritable : gmap fid exn
}.

(** A computation on the file system that may raise. *)
Definition IO (A : Type) : Type := FS -> result A * FS.

Definition ret {A} (a : A) : IO A := fun fs => (Ok a, fs).
Definition raise {A} (e : exn) : IO A := fun fs => (Err e, fs).
Definition lift {A} (m : result A) : IO A := fun fs => (m, fs).
Definition bind {A B} (m : IO A) (k : A -> IO B) : IO B :=
  fun fs =>
    match m fs with
    | (Ok a, fs') => k a fs'
    | (Err e, fs') => (Err e, fs')
    end.

#[global] Instance IO_ret : MRet IO := fun A a => ret a.
#[global] Instance IO_bind : MBind IO := fun A B k m => bind m k.

(** [Image.open(path).convert("RGBA")]: [FileNotFoundError] for a path that
    names nothing, [PermissionError] for a file that cannot be read,
    [UnidentifiedImageError] for a file that is not an image; otherwise the
    file's raster in mode RGBA. *)
Definition Image_open (path : string) : IO Image :=
  fun fs =>
    match files fs !! resolve fs path with
    | None => (Err FileNotFoundError, fs)
    | Some Unreadable => (Err PermissionError, fs)
    | Some OtherFile => (Err UnidentifiedImageError, fs)
    | Some (ImageFile im) => (Ok im, fs)
    end.

(** The file system with [f] as the content of the file [k]. *)
Definition write (fs : FS) (k : fid) (f : file) : FS :=
  mkFS (resolve fs) (<[k := f]> (files fs)) (unwritable fs).

(** Opening a file for writing, [builtins.open(filename, "w+b")]: the error
    raised, if any.  The mode reads as well as writes, so a file that may
    not be read is refused too. *)
Definition open_w (fs : FS) (k : fid) : option exn :=
  match unwritable fs !! k with
  | Some e => Some e
  | None =>
      match files fs !! k with
      | Some Unreadable => Some PermissionError
      | _ => None
      end
  end.

(** Pillow's writers.  [Image.save] finds the writer from the name of the
    file, before it opens it:
<<
    ext = os.path.splitext(filename)[1].lower()
    ...
        try:
            format = EXTENSION[ext]
        except KeyError as e:
            msg = f"unknown file extension: {ext}"
            raise ValueError(msg) from e
    ...
        save_handler = SAVE[format.upper()]
>>
    [save_handler filename] is that writer, or the error of the lookup
    ([ValueError] for an extension no plugin has registered, [KeyError] for
    a format that can only be read).  Applied to the image, the writer
    either raises (the JPEG writer raises [OSError] for an RGBA image) or
    writes the file; its result here is the raster the written file holds,
    the image itself for a lossless format that stores RGBA, as PNG. *)
Variable save_handler : string -> result (Image -> result Image).

(** [img.save(filename)].  After the writer is found:
<<
    created = False
    if open_fp:
        created = not os.path.exists(filename)
        ...
            fp = builtins.open(filename, "w+b")
    try:
        save_handler(self, fp, filename)
    except Exception:
        if open_fp:
            fp.close()
        if created:
            try:
                os.remove(filename)
            except PermissionError:
                pass
        raise
>>
    Opening with ["w+b"] creates the file or empties the one that is there.
    When the writer raises, a file that was created is removed again; one
    that was there before stays, emptied of what it held: no longer an
    image. *)
Definition Image_save (img : Image) (filename : string) : IO unit :=
  fun fs =>
    match save_handler filename with
    | Err e => (Err e, fs)
    | Ok handler =>
        let k := resolve fs filename in
        match open_w fs k with
        | Some e => (Err e, fs)
        | None =>
            match handler img with
            | Ok stored => (Ok tt, write fs k (ImageFile stored))
            | Err e =>
                (Err e, match files fs !! k with
                        | None => fs
                        | Some _ => write fs k OtherFile
                        end)
            end
        end
    end.

(** ** The encoder's constructor

    In qrcode (qrcode/main.py), [QRCode.__init__] begins with
<<
    _check_box_size(box_size)
    _check_border(border)
>>
    where [_check_box_size(size)] raises [ValueError] when [int(size) <= 0]
    and [_check_border(size)] raises it when [int(size) < 0]. *)

Definition _check_box_size (size : Z) : result unit :=
  if size <=? 0 then Err ValueError else Ok tt.

Definition _check_border (size : Z) : result unit :=
  if size <? 0 then Err ValueError else Ok tt.

(** Lines 33 to 41: [qrcode.QRCode(...)] checks the module size and the
    border, then the symbol is made and rendered. *)
Definition make_symbol (link : string) (version box_size border : Z)
    (fill_color back_color : string) : result Image :=
  _ ← _check_box_size box_size;
  _ ← _check_border border;
  render link version box_size border fill_color back_color.

(** ** The compositor *)

(** The plate's edge for a logo edge: [((int(1.05*d) // box_size)+1) * box_size]. *)
Definition bbox_dim (d box_size : Z) : result Z :=
  f ← Float.mul_int Float.lit_1_05 d;
  i ← Float.to_int f;
  q ← floordiv i box_size;
  Ok ((q + 1) * box_size).

(** [logo_max_size = int(min(qr_width, qr_height) * logo_size)]. *)
Definition logo_max_size (qr_width qr_height : Z) (logo_size : Float.float)
  : result Z :=
  f ← Float.int_mul (Z.min qr_width qr_height) logo_size;
  Float.to_int f.

(** The centring offset [(outer - inner) // 2]. *)
Definition center (outer inner : Z) : Z := (outer - inner) / 2.

(** Lines 46 to 64, on the logo already loaded.  The two [paste] calls
    mutate [img]; here each returns the new canvas. *)
Definition add_logo (img logo : Image) (box_size : Z) (logo_size : Float.float)
  : result Image :=
  let '(qr_width, qr_height) := size img in
  cap ← logo_max_size qr_width qr_height logo_size;
  logo ← thumbnail logo cap cap;
  let '(logo_width, logo_height) := size logo in
  let x_center := center qr_width logo_width in
  let y_center := center qr_height logo_height in
  let position := (x_center, y_center) in
  let color := (255, 255, 255) in
  bbox_width ← bbox_dim logo_width box_size;
  bbox_height ← bbox_dim logo_height box_size;
  let bbox_position := (center qr_width bbox_width, center qr_height bbox_height) in
  bbox ← Image_new bbox_width bbox_height color;
  let img := paste img bbox bbox_position in
  let img := paste img logo position in
  Ok img.

Record Args := mkArgs {
  link : string;
  filename : string;
  version : Z;
  fill_color : string;
  back_color : string;
  box_size : Z;
  border : Z;
  logo_path : option string;
  logo_size : Float.float
}.

(** The image that reaches [img.save]: the symbol, with the logo when a
    path is given. *)
Definition compose (a : Args) (img : Image) : IO Image :=
  match logo_path a with
  | Some path =>
      logo ← Image_open path;
      lift (add_logo img logo (box_size a) (logo_size a))
  | None => ret img
  end.

(** The function of the source: encode, compose, save. *)
Definition generate_qr_code_for_link (a : Args) : IO unit :=
  img ← lift (make_symbol (link a) (version a) (box_size a) (border a)
                  (fill_color a) (back_color a));
  img ← compose a img;
  Image_save img (filename a).

End Program.

(** ** Stand-ins for the parameters

    Closed instances of the parameters, used where a statement has to be
    evaluated: nearest-neighbour resampling, a one-bit "over" blend, a
    blank symbol of the size the encoder documents,
    [(modules + 2 * border) * box_size] with [modules = 4 * version + 17],
    and, further down, two writers and a directory. *)

Definition nearest (im : Image) (w h x y : Z) : pixel :=
  px im (x * width im / w) (y * height im / h).

Definition over (dst src : pixel) : pixel :=
  if alpha src =? 0 then dst else src.

Definition blank (link : string) (version box_size border : Z)
    (fill_color back_color : string) : result Image :=
  let side := (4 * version + 17 + 2 * border) * box_size in
  Ok (mkImage side side (fun _ _ => RGBA 255 255 255 255)).

(** The command line's defaults, for the link of the design document's
    scenarios. *)
Definition default_args (logo : option string) : Args :=
  mkArgs "https://example.com" "qrcode.png" 4 "black" "white" 25 2 logo
    Float.lit_0_25.

(** A degenerate [--logo_size]: the double nearest to 0.001. *)
Definition lit_0_001 : Float.float := S754_finite false 4611686018427388 (-62).

(** A [--logo_size] just above [1 / 925]: the double nearest to 0.0015. *)
Definition lit_0_0015 : Float.float := S754_finite false 6917529027641082 (-62).

(** The double nearest to [3 / 925]; it lies below the fraction. *)
Definition lit_3_925 : Float.float := S754_finite false 7478409759611980 (-61).

(** A 500 x 200 opaque red logo. *)
Definition red_logo : Image := mkImage 500 200 (fun _ _ => RGBA 255 0 0 255).

(** Paths: one directory, where [./name] and [name] are the same file. *)
Definition plain (path : string) : fid :=
  if String.prefix "./" path
  then String.substring 2 (Nat.sub (String.length path) 2) path
  else path.

(** Writers, by the last four characters of the name: [.png] stores the
    image as it is, [.jpg] refuses an RGBA image, anything else is an
    unknown extension. *)
Definition extension (filename : string) : string :=
  String.substring (Nat.sub (String.length filename) 4) 4 filename.

Definition writers (filename : string) : result (Image -> result Image) :=
  if String.eqb (extension filename) ".png" then Ok (fun im => Ok im)
  else if String.eqb (extension filename) ".jpg" then Ok (fun _ => Err OSError)
  else Err ValueError.

(** A file system that holds the red logo as [logo.png], an older picture
    as [old.jpg], and a directory [locked] that cannot be written. *)
Definition fs_with_logo : FS :=
  mkFS plain
    {[ "logo.png" := ImageFile red_logo; "old.jpg" := ImageFile red_logo ]}
    {[ "locked/qrcode.png" := PermissionError ]}.

(** The same, with the red logo under the name of the output. *)
Definition fs_logo_is_output : FS :=
  mkFS plain {[ "qrcode.png" := ImageFile red_logo ]} ∅.

(** ** The vocabulary of the statements *)

(** The file system after a file holding the raster [img] has been written
    under [name]. *)
Definition saved (fs : FS) (name : string) (img : Image) : FS :=
  write fs (resolve fs name) (ImageFile img).

(** The record of a right shift, against the exact quotient [p / Q]. *)
Definition shr_inv (mrs : shr_record) (p Q : Z) : Prop :=
  shr_m mrs = p / Q /\ (shr_r mrs || shr_s mrs = false <-> p mod Q = 0).

(** A positive double below [2^52]: mantissa [m] of 53 digits over the
    power of two [B], value [m / B]. *)
Definition is_float (f : Float.float) (m : positive) (B : Z) : Prop :=
  exists e, f = S754_finite false m e /\ -1074 <= e <= 0 /\ B = 2 ^ (- e) /\
            2 ^ 52 <= Z.pos m < 2 ^ 53.

(** [f] is one of the two doubles around the rational [N / D] (the one
    double, when [N / D] is a double). *)
Definition rounds (f : Float.float) (N D : Z) : Prop :=
  exists m B, is_float f m B /\ (Z.pos m - 1) * D < N * B < (Z.pos m + 1) * D.

(** What the thumbnail's size must satisfy, for an image [w] x [h] and a
    box [cap] x [cap]. *)
Definition thumb_size_ok (w h cap : Z) (r : option (Z * Z)) : Prop :=
  match r with
  | None => w <= cap /\ h <= cap
  | Some (w', h') =>
      (cap < w \/ cap < h) /\
      1 <= w' <= Z.min cap w /\ 1 <= h' <= Z.min cap h /\
      Z.max w' h' = cap /\
      Z.abs (w' * h - h' * w) <= Z.max w h
  end.

(** The box of a [w] x [h] image pasted at [(x0, y0)]: the test of [paste]. *)
Definition in_box (x0 y0 w h x y : Z) : bool :=
  (x0 <=? x) && (x <? x0 + w) && (y0 <=? y) && (y <? y0 + h).

(** The opaque white of the plate. *)
Definition white : pixel := RGBA 255 255 255 255.

(** The symbol and the composed image of the default command line with the
    red logo, under the stand-ins. *)
Definition blank_symbol : Image := mkImage 925 925 (fun _ _ => white).

Definition demo_out : Image :=
  paste over
    (paste over blank_symbol (mkImage 250 100 (fun _ _ => white)) (337, 412))
    (mkImage 231 92 (nearest red_logo 231 92)) (347, 416).

(** What the same command line composes when it finds [demo_out] as its
    logo: the picture reduced to 231 x 231 on a plate of 250 x 250. *)
Definition demo_out_again : Image :=
  paste over
    (paste over blank_symbol (mkImage 250 250 (fun _ _ => white)) (337, 337))
    (mkImage 231 231 (nearest demo_out 231 231)) (347, 347).

(** * Properties *)

(** ** Unfolding the monads *)

Lemma rbind_Ok {A B} (m : result A) (k : A -> result B) (b : B) :
  m ≫= k = Ok b -> exists a, m = Ok a /\ k a = Ok b.
Proof.
  destruct m as [a|e]; cbn; intros H.
  - exists a. split; [reflexivity | exact H].
  - discriminate H.
Qed.

Lemma rbind_Ok_l {A B} (m : result A) (k : A -> result B) (a : A) :
  m = Ok a -> m ≫= k = k a.
Proof. intros ->. reflexivity. Qed.

Lemma rbind_Err {A B} (m : result A) (k : A -> result B) (e : exn) :
  m = Err e -> m ≫= k = Err e.
Proof. intros ->. reflexivity. Qed.

Ltac res_inv H :=
  let a := fresh "a" in
  let Ha := fresh "Ha" in
  apply rbind_Ok in H; destruct H as (a & Ha & H).

(** ** Binary64: rounding

    [SpecFloat] rounds a mantissa by shifting it right while a round bit and
    a sticky bit record what falls off.  The lemmas of this part follow a
    mantissa [p / Q], the integer part of an exact rational, through [shr],
    [round_nearest_even] and [binary_round_aux], and end in one fact about
    each operation of the program: the double it returns is the exact
    result rounded down or rounded up to a double ([rounds]), hence the
    exact result itself when that is a double.  Nothing finer about
    rounding to nearest is used. *)

(** [digits2_pos] counts binary digits. *)
Lemma digits2_pos_bounds (m : positive) :
  2 ^ (Z.pos (digits2_pos m) - 1) <= Z.pos m < 2 ^ Z.pos (digits2_pos m).
Proof.
  induction m as [m IH | m IH |]; cbn [digits2_pos].
  - rewrite Pos2Z.inj_succ.
    replace (Z.succ (Z.pos (digits2_pos m)) - 1)
      with (Z.succ (Z.pos (digits2_pos m) - 1)) by lia.
    rewrite !Z.pow_succ_r by lia. lia.
  - rewrite Pos2Z.inj_succ.
    replace (Z.succ (Z.pos (digits2_pos m)) - 1)
      with (Z.succ (Z.pos (digits2_pos m) - 1)) by lia.
    rewrite !Z.pow_succ_r by lia. lia.
  - cbn. lia.
Qed.

Lemma digits2_pos_unique (m : positive) (d : Z) :
  2 ^ (d - 1) <= Z.pos m < 2 ^ d -> Z.pos (digits2_pos m) = d.
Proof.
  intros [Hlo Hhi]. pose proof (digits2_pos_bounds m) as [Hlo' Hhi'].
  set (d' := Z.pos (digits2_pos m)) in *.
  assert (0 < d).
  { destruct (Z.lt_ge_cases 0 d) as [|Hd]; [assumption|exfalso].
    destruct (Z.eq_dec d 0) as [-> | Hne].
    - change (2 ^ 0) with 1 in Hhi. lia.
    - rewrite Z.pow_neg_r in Hhi by lia. lia. }
  destruct (Z.lt_trichotomy d' d) as [Hlt | [Heq | Hgt]]; [|exact Heq|].
  - assert (2 ^ d' <= 2 ^ (d - 1)) by (apply Z.pow_le_mono_r; lia). lia.
  - assert (2 ^ d <= 2 ^ (d' - 1)) by (apply Z.pow_le_mono_r; lia). lia.
Qed.

(** One shift halves the quotient; the round and sticky bits are both clear
    exactly when nothing non-zero has been shifted out. *)
Lemma shr_1_inv (mrs : shr_record) (p Q : Z) :
  0 <= p -> 0 < Q -> shr_inv mrs p Q -> shr_inv (shr_1 mrs) p (Q * 2).
Proof.
  intros Hp HQ [Hm Hrs].
  assert (Hdiv : p / (Q * 2) = p / Q / 2) by (rewrite Z.div_div; lia).
  assert (Hmod : p mod (Q * 2) = p mod Q + Q * ((p / Q) mod 2))
    by (apply Z.rem_mul_r; lia).
  pose proof (Z.mod_pos_bound p Q HQ) as Hb.
  assert (Hm0 : 0 <= p / Q) by (apply Z.div_pos; lia).
  destruct mrs as [m r s]. cbn [shr_m shr_r shr_s] in *. subst m.
  unfold shr_inv. rewrite Hdiv, Hmod.
  destruct (p / Q) as [|[q|q|]|q] eqn:Hq; try lia; cbn [shr_1 shr_m shr_r shr_s].
  - split; [reflexivity|]. cbn [orb]. change (0 mod 2) with 0.
    rewrite Hrs. lia.
  - (* odd *) split.
    + rewrite Pos2Z.inj_xI. apply Z.div_unique with 1; lia.
    + cbn [orb]. replace (Z.pos q~1 mod 2) with 1.
      2:{ rewrite Pos2Z.inj_xI. apply Z.mod_unique with (Z.pos q); lia. }
      split; [discriminate | lia].
  - split.
    + rewrite Pos2Z.inj_xO. apply Z.div_unique with 0; lia.
    + cbn [orb]. replace (Z.pos q~0 mod 2) with 0.
      2:{ rewrite Pos2Z.inj_xO. apply Z.mod_unique with (Z.pos q); lia. }
      rewrite Hrs. lia.
  - split; [reflexivity|]. cbn [orb]. change (1 mod 2) with 1.
    split; [discriminate | lia].
Qed.

(** [n] shifts divide by [2^n]. *)
Lemma iter_shr_1_inv (n : positive) (mrs : shr_record) (p Q : Z) :
  0 <= p -> 0 < Q -> shr_inv mrs p Q ->
  shr_inv (SpecFloat.iter_pos shr_1 n mrs) p (Q * 2 ^ Z.pos n).
Proof.
  intros Hp. revert mrs Q.
  induction n as [n IH | n IH |]; intros mrs Q HQ H; cbn [SpecFloat.iter_pos].
  - replace (Q * 2 ^ Z.pos n~1) with (Q * 2 * 2 ^ Z.pos n * 2 ^ Z.pos n).
    2:{ replace (Z.pos n~1) with (1 + Z.pos n + Z.pos n) by lia.
        rewrite !Z.pow_add_r by lia. change (2 ^ 1) with 2. ring. }
    apply IH; [|apply IH; [lia | now apply shr_1_inv]].
    assert (0 < 2 ^ Z.pos n) by (apply Z.pow_pos_nonneg; lia). nia.
  - replace (Q * 2 ^ Z.pos n~0) with (Q * 2 ^ Z.pos n * 2 ^ Z.pos n).
    2:{ replace (Z.pos n~0) with (Z.pos n + Z.pos n) by lia.
        rewrite Z.pow_add_r by lia. ring. }
    apply IH; [|apply IH; [lia | exact H]].
    assert (0 < 2 ^ Z.pos n) by (apply Z.pow_pos_nonneg; lia). nia.
  - change (2 ^ 1) with 2. now apply shr_1_inv.
Qed.

(** The record [shr] starts from. *)
Lemma shr_record_of_loc_inv (m p Q : Z) (l : location) :
  m = p / Q -> (l = loc_Exact <-> p mod Q = 0) ->
  shr_inv (shr_record_of_loc m l) p Q.
Proof.
  intros -> Hl. split.
  - destruct l as [|[]]; reflexivity.
  - rewrite <- Hl. destruct l as [|[]]; cbn; split; congruence.
Qed.

Lemma shr_inv_shift (mrs : shr_record) (e n p Q : Z) :
  0 <= p -> 0 < Q -> 0 <= n -> shr_inv mrs p Q ->
  exists mrs', shr mrs e n = (mrs', e + n) /\ shr_inv mrs' p (Q * 2 ^ n).
Proof.
  intros Hp HQ Hn H. destruct n as [|n|n]; [| |lia].
  - exists mrs. cbn [shr]. now rewrite Z.add_0_r, Z.mul_1_r.
  - exists (SpecFloat.iter_pos shr_1 n mrs). split; [reflexivity|].
    now apply iter_shr_1_inv.
Qed.

(** Rounding to nearest even moves to a neighbour of the exact quotient, and
    stays put on an exact one. *)
Lemma round_nearest_even_inv (mrs : shr_record) (p Q : Z) :
  0 < Q -> shr_inv mrs p Q ->
  let m := round_nearest_even (shr_m mrs) (loc_of_shr_record mrs) in
  (m - 1) * Q < p < (m + 1) * Q /\ (m = p / Q \/ m = p / Q + 1).
Proof.
  intros HQ [Hm Hrs]. destruct mrs as [m0 r s]. cbn [shr_m shr_r shr_s] in *.
  pose proof (Z.div_mod p Q ltac:(lia)) as Hdm.
  pose proof (Z.mod_pos_bound p Q HQ) as Hb.
  assert (Hup : r || s = true -> 0 < p mod Q).
  { intros Hrs'. assert (p mod Q <> 0) by (rewrite <- Hrs; congruence). lia. }
  subst m0.
  destruct r, s; cbn [loc_of_shr_record round_nearest_even orb] in *;
    try (destruct (Z.even (p / Q))); try specialize (Hup eq_refl);
    split; try nia; auto.
Qed.

(** A mantissa of 53 digits is left as it is; [2^53], the carry of a
    rounding, is shifted once. *)
Lemma shr_fexp_exact (m : positive) (e : Z) :
  2 ^ 52 <= Z.pos m < 2 ^ 53 -> -1074 <= e ->
  shr_fexp 53 1024 (Z.pos m) e loc_Exact
  = (Build_shr_record (Z.pos m) false false, e).
Proof.
  intros Hm He. unfold shr_fexp. cbn [Zdigits2].
  rewrite (digits2_pos_unique m 53) by (change (53 - 1) with 52; lia).
  replace (fexp 53 1024 (53 + e) - e) with 0 by (unfold fexp, emin; lia).
  reflexivity.
Qed.

Lemma shr_fexp_carry (e : Z) :
  -1074 <= e ->
  shr_fexp 53 1024 (2 ^ 53) e loc_Exact
  = (Build_shr_record (2 ^ 52) false false, e + 1).
Proof.
  intros He. unfold shr_fexp.
  change (Zdigits2 (2 ^ 53)) with 54.
  replace (fexp 53 1024 (54 + e) - e) with 1 by (unfold fexp, emin; lia).
  reflexivity.
Qed.

(** [binary_round_aux] on a mantissa [p / Q] of at least 53 digits returns
    a mantissa [m] of 53 digits at an exponent [e], and the exact value
    [p / Q * 2^ex] lies strictly between [(m - 1) * 2^e] and
    [(m + 1) * 2^e]. *)
Lemma binary_round_aux_bracket (mx ex p Q : Z) (lx : location) :
  0 < Q -> 0 <= p ->
  mx = p / Q ->
  (lx = loc_Exact <-> p mod Q = 0) ->
  53 <= Zdigits2 mx ->
  -1074 <= Zdigits2 mx + ex - 53 < 971 ->
  exists m e,
    binary_round_aux 53 1024 false mx ex lx = S754_finite false m e /\
    2 ^ 52 <= Z.pos m < 2 ^ 53 /\
    ex <= e /\ -1074 <= e <= 971 /\
    (Z.pos m - 1) * (Q * 2 ^ (e - ex)) < p < (Z.pos m + 1) * (Q * 2 ^ (e - ex)).
Proof.
  intros HQ Hp Hmx Hlx Hd He.
  assert (Hmxpos : 0 < mx).
  { assert (0 <= mx) by (subst mx; apply Z.div_pos; lia).
    destruct mx; cbn in Hd; lia. }
  destruct mx as [|mx'|]; try lia.
  cbn [Zdigits2] in Hd, He.
  pose proof (digits2_pos_bounds mx') as Hdig.
  unfold binary_round_aux. unfold shr_fexp at 1. cbn [Zdigits2].
  set (d := Z.pos (digits2_pos mx')) in *. clearbody d.
  replace (fexp 53 1024 (d + ex) - ex) with (d - 53)
    by (unfold fexp, emin; lia).
  remember (d - 53) as n eqn:Hn.
  destruct (shr_inv_shift (shr_record_of_loc (Z.pos mx') lx) ex n p Q)
    as (mrs1 & -> & Hinv1); try lia.
  { now apply shr_record_of_loc_inv. }
  assert (Hpow : 0 < 2 ^ n) by (apply Z.pow_pos_nonneg; lia).
  set (Q1 := Q * 2 ^ n) in *.
  assert (HQ1 : 0 < Q1) by (unfold Q1; nia).
  pose proof (round_nearest_even_inv mrs1 p Q1 HQ1 Hinv1) as [Hbr Hm1].
  set (m1 := round_nearest_even (shr_m mrs1) (loc_of_shr_record mrs1)) in *.
  clearbody m1.
  assert (Hq : 2 ^ 52 <= p / Q1 < 2 ^ 53).
  { unfold Q1. rewrite <- Z.div_div by lia. rewrite <- Hmx.
    assert (Hsplit : 2 ^ d = 2 ^ 53 * 2 ^ n).
    { rewrite <- Z.pow_add_r by lia. f_equal. lia. }
    assert (Hsplit' : 2 ^ (d - 1) = 2 ^ 52 * 2 ^ n).
    { rewrite <- Z.pow_add_r by lia. f_equal. lia. }
    split.
    - apply Z.div_le_lower_bound; lia.
    - apply Z.div_lt_upper_bound; lia. }
  assert (Hm1r : 2 ^ 52 <= m1 <= 2 ^ 53) by lia.
  destruct (Z.eq_dec m1 (2 ^ 53)) as [Hcarry | Hnocarry].
  - (* the rounding carried into the next binade *)
    rewrite Hcarry, shr_fexp_carry by lia. cbn [shr_m].
    change (2 ^ 52) with (Z.pos 4503599627370496).
    destruct (Z.leb_spec (ex + n + 1) (1024 - 53)) as [_|]; [|lia].
    exists 4503599627370496%positive, (ex + n + 1).
    replace (ex + n + 1 - ex) with (n + 1) by lia.
    rewrite Z.pow_add_r by lia. change (2 ^ 1) with 2.
    change (2 ^ 53) with 9007199254740992 in *.
    change (2 ^ 52) with 4503599627370496 in *.
    repeat split; try lia; unfold Q1 in *; nia.
  - assert (Hm1pos : 0 < m1) by lia.
    destruct m1 as [|m1'|]; try lia.
    rewrite shr_fexp_exact by lia. cbn [shr_m].
    destruct (Z.leb_spec (ex + n) (1024 - 53)) as [_|]; [|lia].
    exists m1', (ex + n).
    replace (ex + n - ex) with n by lia. fold Q1.
    repeat split; lia.
Qed.

(** The two predicates. *)
Lemma is_float_B_pos f m B : is_float f m B -> 0 < B.
Proof. intros (e & _ & He & -> & _). apply Z.pow_pos_nonneg; lia. Qed.

Lemma is_float_inj f m B m' B' :
  is_float f m B -> is_float f m' B' -> m' = m /\ B' = B.
Proof.
  intros (e & -> & _ & -> & _) (e' & [= <- <-] & _ & -> & _). auto.
Qed.

Lemma pow2_le_inv (a b : Z) : 0 <= a -> 0 <= b -> 2 ^ a <= 2 ^ b -> a <= b.
Proof. intros Ha Hb H. apply (Z.pow_le_mono_r_iff 2); lia. Qed.

Lemma pow2_lt_inv (a b : Z) : 0 <= a -> 0 <= b -> 2 ^ a < 2 ^ b -> a < b.
Proof. intros Ha Hb H. apply (Z.pow_lt_mono_r_iff 2); lia. Qed.

(** [rounds] sees the rational, not the fraction that names it. *)
Lemma rounds_eqv f N D N' D' :
  0 < D -> 0 < D' -> N' * D = N * D' -> rounds f N' D' -> rounds f N D.
Proof.
  intros HD HD' Heq (m & B & Hf & Hlo & Hhi). exists m, B.
  split; [exact Hf|].
  pose proof (is_float_B_pos _ _ _ Hf) as HB.
  split; apply (Z.mul_lt_mono_pos_r D'); try lia.
  - replace (N * B * D') with (N' * B * D)
      by (rewrite <- Z.mul_assoc, (Z.mul_comm B), Z.mul_assoc, Heq; ring).
    nia.
  - replace (N * B * D') with (N' * B * D)
      by (rewrite <- Z.mul_assoc, (Z.mul_comm B), Z.mul_assoc, Heq; ring).
    nia.
Qed.

(** From the bracket of [binary_round_aux] to [rounds], for a value below
    [2^52]. *)
Lemma binary_round_aux_rounds (mx ex p Q : Z) (lx : location) :
  0 < Q -> 0 <= p ->
  mx = p / Q ->
  (lx = loc_Exact <-> p mod Q = 0) ->
  53 <= Zdigits2 mx ->
  -1074 <= Zdigits2 mx + ex - 53 ->
  ex <= 0 ->
  p < 2 ^ 52 * (Q * 2 ^ (- ex)) ->
  rounds (binary_round_aux 53 1024 false mx ex lx) p (Q * 2 ^ (- ex)).
Proof.
  intros HQ Hp Hmx Hlx Hd He Hex Hv.
  assert (Hdlt : Zdigits2 mx + ex - 53 < 0).
  { (* mx < 2^52 * 2^(-ex), so it has at most 52 - ex digits *)
    assert (Hmxlt : mx < 2 ^ (52 - ex)).
    { subst mx. apply Z.div_lt_upper_bound; [lia|].
      replace (52 - ex) with (52 + - ex) by lia. rewrite Z.pow_add_r by lia. lia. }
    assert (0 <= mx) by (subst mx; apply Z.div_pos; lia).
    destruct mx as [|mx'|]; cbn [Zdigits2] in *; try lia.
    pose proof (digits2_pos_bounds mx') as [Hlo _].
    assert (Z.pos (digits2_pos mx') - 1 < 52 - ex); [|lia].
    apply pow2_lt_inv; lia. }
  destruct (binary_round_aux_bracket mx ex p Q lx)
    as (m & e & -> & Hm & Hee & Her & Hlo & Hhi); try assumption; try lia.
  assert (Hpe : 0 < 2 ^ (e - ex)) by (apply Z.pow_pos_nonneg; lia).
  assert (Hpx : 0 < 2 ^ (- ex)) by (apply Z.pow_pos_nonneg; lia).
  assert (He0 : e <= 0).
  { destruct (Z.le_gt_cases e 0) as [|Hpos]; [assumption|exfalso].
    assert (2 * 2 ^ (- ex) <= 2 ^ (e - ex)).
    { replace (e - ex) with (1 + (e - 1) + - ex) by lia.
      rewrite !Z.pow_add_r by lia. change (2 ^ 1) with 2.
      assert (0 < 2 ^ (e - 1)) by (apply Z.pow_pos_nonneg; lia). nia. }
    change (2 ^ 52) with 4503599627370496 in *. nia. }
  exists m, (2 ^ (- e)). split.
  - exists e. repeat split; lia.
  - assert (Hsplit : 2 ^ (e - ex) * 2 ^ (- e) = 2 ^ (- ex)).
    { rewrite <- Z.pow_add_r by lia. f_equal. lia. }
    assert (Hpb : 0 < 2 ^ (- e)) by (apply Z.pow_pos_nonneg; lia).
    rewrite <- Hsplit. split; nia.
Qed.

(** Aligning a mantissa to the left. *)
Lemma Pos_iter_xO (m k : positive) :
  Z.pos (Pos.iter xO m k) = Z.pos m * 2 ^ Z.pos k.
Proof.
  induction k as [|k IH] using Pos.peano_ind.
  - cbn. lia.
  - rewrite Pos.iter_succ, Pos2Z.inj_xO, IH, Pos2Z.inj_succ, Z.pow_succ_r by lia.
    ring.
Qed.

(** The digits of a number between two powers of two. *)
Lemma Zdigits2_lower (z d : Z) : 0 <= d -> 2 ^ d <= z -> d < Zdigits2 z.
Proof.
  intros Hd Hz.
  assert (0 < 2 ^ d) by (apply Z.pow_pos_nonneg; lia).
  destruct z as [|z|z]; try lia. cbn [Zdigits2].
  pose proof (digits2_pos_bounds z) as [_ Hhi].
  apply pow2_lt_inv; lia.
Qed.

Lemma Zdigits2_upper (z d : Z) : 0 < z -> 0 <= d -> z < 2 ^ d -> Zdigits2 z <= d.
Proof.
  intros Hz Hd Hlt. destruct z as [|z|z]; try lia. cbn [Zdigits2].
  pose proof (digits2_pos_bounds z) as [Hlo _].
  assert (Z.pos (digits2_pos z) - 1 < d); [|lia].
  apply pow2_lt_inv; lia.
Qed.

(** [float(n)] is exact below [2^52]. *)
Lemma of_int_spec (n : Z) :
  0 < n < 2 ^ 52 ->
  exists f m B, Float.of_int n = Ok f /\ is_float f m B /\ Z.pos m = n * B.
Proof.
  intros [Hn0 Hn]. destruct n as [|n|]; try lia.
  unfold Float.of_int, binary_normalize, binary_round, shl_align.
  pose proof (digits2_pos_bounds n) as [Hlo Hhi].
  assert (Hd : Z.pos (digits2_pos n) <= 52).
  { apply (Zdigits2_upper (Z.pos n) 52); lia. }
  set (d := Z.pos (digits2_pos n)) in *.
  replace (fexp Float.prec Float.emax (d + 0) - 0) with (d - 53)
    by (unfold fexp, emin, Float.prec, Float.emax; lia).
  replace (fexp Float.prec Float.emax (d + 0)) with (d - 53)
    by (unfold fexp, emin, Float.prec, Float.emax; lia).
  destruct (d - 53) as [|k|k] eqn:Hk; try lia.
  assert (Hmz : Z.pos (Pos.iter xO n k) = Z.pos n * 2 ^ (53 - d)).
  { rewrite Pos_iter_xO. do 2 f_equal. lia. }
  set (mz := Pos.iter xO n k) in *. clearbody mz.
  assert (Hsplit : 2 ^ 53 = 2 ^ d * 2 ^ (53 - d)).
  { rewrite <- Z.pow_add_r by lia. f_equal. lia. }
  assert (Hsplit' : 2 ^ 52 = 2 ^ (d - 1) * 2 ^ (53 - d)).
  { rewrite <- Z.pow_add_r by lia. f_equal. lia. }
  assert (Hpk : 0 < 2 ^ (53 - d)) by (apply Z.pow_pos_nonneg; lia).
  assert (Hmzr : 2 ^ 52 <= Z.pos mz < 2 ^ 53) by nia.
  pose proof (binary_round_aux_rounds (Z.pos mz) (Z.neg k) (Z.pos mz) 1 loc_Exact)
    as (m & B & Hf & Hbr).
  - lia.
  - lia.
  - now rewrite Z.div_1_r.
  - rewrite Z.mod_1_r. tauto.
  - cbn [Zdigits2]. rewrite (digits2_pos_unique mz 53); [lia|].
    change (53 - 1) with 52. lia.
  - cbn [Zdigits2]. rewrite (digits2_pos_unique mz 53); [lia|].
    change (53 - 1) with 52. lia.
  - lia.
  - replace (- Z.neg k) with (53 - d) by lia. nia.
  - replace (- Z.neg k) with (53 - d) in Hbr by lia.
    destruct Hf as (e & Hfe & He & HB & Hm).
    unfold Float.prec, Float.emax. rewrite Hfe.
    exists (S754_finite false m e), m, B. split; [reflexivity|]. split.
    + exists e. auto.
    + rewrite Hmz, Z.mul_1_l in Hbr. destruct Hbr as [Hb1 Hb2].
      assert (Z.pos m - 1 < Z.pos n * B < Z.pos m + 1); [|lia].
      split; apply (Z.mul_lt_mono_pos_r (2 ^ (53 - d))); lia.
Qed.

(** The product of two doubles, when it lies between [2^-1000] and [2^52]. *)
Lemma mul_spec (x y : Float.float) (mx my : positive) (Bx By : Z) :
  is_float x mx Bx -> is_float y my By ->
  Bx * By <= 2 ^ 1000 ->
  Z.pos mx * Z.pos my < 2 ^ 52 * (Bx * By) ->
  rounds (Float.mul x y) (Z.pos mx * Z.pos my) (Bx * By).
Proof.
  intros (ex & -> & Hex & -> & Hmx) (ey & -> & Hey & -> & Hmy) Hsmall Hbig.
  rewrite <- Z.pow_add_r in Hsmall, Hbig |- * by lia.
  assert (Hexy : - ex + - ey <= 1000) by (apply pow2_le_inv; lia).
  unfold Float.mul, SFmul. cbn [xorb]. rewrite Pos2Z.inj_mul.
  replace (2 ^ (- ex + - ey)) with (1 * 2 ^ (- (ex + ey))) in Hbig |- *
    by (rewrite Z.mul_1_l; f_equal; lia).
  change (2 ^ 52) with 4503599627370496 in Hmx, Hmy.
  change (2 ^ 53) with 9007199254740992 in Hmx, Hmy.
  assert (H104 : 2 ^ 104 <= Z.pos mx * Z.pos my).
  { change (2 ^ 104) with (4503599627370496 * 4503599627370496). nia. }
  apply binary_round_aux_rounds; try lia.
  - now rewrite Z.div_1_r.
  - rewrite Z.mod_1_r. tauto.
  - pose proof (Zdigits2_lower _ 104 ltac:(lia) H104). lia.
  - pose proof (Zdigits2_lower _ 104 ltac:(lia) H104). lia.
Qed.

(** The location of a quotient is exact when the remainder is zero. *)
Lemma new_location_exact (nb k : Z) :
  new_location nb k = loc_Exact <-> k = 0.
Proof.
  unfold new_location, new_location_even, new_location_odd.
  destruct (Z.even nb); destruct (Z.eqb_spec k 0); split; congruence.
Qed.

(** The quotient of two doubles, when it lies between [2^-1000] and [2^52]. *)
Lemma div_spec (x y : Float.float) (mx my : positive) (Bx By : Z) :
  is_float x mx Bx -> is_float y my By ->
  Bx <= 2 ^ 1000 -> By <= 2 ^ 1000 ->
  Z.pos mx * By < 2 ^ 52 * (Z.pos my * Bx) ->
  rounds (Float.div x y) (Z.pos mx * By) (Z.pos my * Bx).
Proof.
  intros (ex & -> & Hex & -> & Hmx) (ey & -> & Hey & -> & Hmy) Hsx Hsy Hbig.
  assert (Hex' : - ex <= 1000) by (apply pow2_le_inv; lia).
  assert (Hey' : - ey <= 1000) by (apply pow2_le_inv; lia).
  assert (HBx : 0 < 2 ^ (- ex)) by (apply Z.pow_pos_nonneg; lia).
  assert (HBy : 0 < 2 ^ (- ey)) by (apply Z.pow_pos_nonneg; lia).
  change (2 ^ 52) with 4503599627370496 in Hmx, Hmy, Hbig.
  change (2 ^ 53) with 9007199254740992 in Hmx, Hmy.
  (* the quotient is below 2^52, so the exponents are less than 53 apart *)
  assert (Hlt : - ey < 53 + - ex).
  { apply pow2_lt_inv; try lia. rewrite Z.pow_add_r by lia.
    change (2 ^ 53) with 9007199254740992. nia. }
  unfold Float.div, SFdiv, SFdiv_core_binary. cbn [xorb Zdigits2].
  rewrite (digits2_pos_unique mx 53), (digits2_pos_unique my 53)
    by (change (53 - 1) with 52; change (2 ^ 52) with 4503599627370496;
        change (2 ^ 53) with 9007199254740992; lia).
  replace (Z.min (fexp Float.prec Float.emax (53 + ex - (53 + ey))) (ex - ey))
    with (ex - ey - 53)
    by (unfold fexp, emin, Float.prec, Float.emax; lia).
  replace (ex - ey - (ex - ey - 53)) with 53 by lia.
  cbv beta iota zeta.
  rewrite Z.shiftl_mul_pow2 by lia.
  set (p := Z.pos mx * 2 ^ 53).
  pose proof (Z.div_eucl_eq p (Z.pos my) ltac:(lia)) as Heucl.
  pose proof (Z.mod_pos_bound p (Z.pos my) ltac:(lia)) as Hrem.
  unfold Z.modulo in Hrem.
  assert (Hq : fst (Z.div_eucl p (Z.pos my)) = p / Z.pos my) by reflexivity.
  assert (Hr : snd (Z.div_eucl p (Z.pos my)) = p mod Z.pos my) by reflexivity.
  destruct (Z.div_eucl p (Z.pos my)) as [q r]. cbn [fst snd] in *.
  assert (Hq52 : 2 ^ 52 <= q).
  { rewrite Hq. apply Z.div_le_lower_bound; [lia|]. unfold p.
    change (2 ^ 52) with 4503599627370496.
    change (2 ^ 53) with 9007199254740992. nia. }
  assert (Hpow : 2 ^ 53 * 2 ^ (- ex) = 2 ^ (- ey) * 2 ^ (- (ex - ey - 53))).
  { rewrite <- !Z.pow_add_r by lia. f_equal. lia. }
  assert (HD' : 0 < 2 ^ (- (ex - ey - 53))) by (apply Z.pow_pos_nonneg; lia).
  apply (rounds_eqv _ _ _ p (Z.pos my * 2 ^ (- (ex - ey - 53))));
    [nia | nia | |].
  { unfold p.
    transitivity (Z.pos mx * Z.pos my * (2 ^ 53 * 2 ^ (- ex))); [ring|].
    rewrite Hpow. ring. }
  apply binary_round_aux_rounds.
  - lia.
  - unfold p. change (2 ^ 53) with 9007199254740992. lia.
  - exact Hq.
  - rewrite <- Hr. apply new_location_exact.
  - pose proof (Zdigits2_lower q 52 ltac:(lia) Hq52). lia.
  - pose proof (Zdigits2_lower q 52 ltac:(lia) Hq52). lia.
  - lia.
  - unfold p.
    apply (Z.mul_lt_mono_pos_r (2 ^ (- ey))); [lia|].
    replace (2 ^ 52 * (Z.pos my * 2 ^ (- (ex - ey - 53))) * 2 ^ (- ey))
      with (2 ^ 52 * Z.pos my * (2 ^ (- ey) * 2 ^ (- (ex - ey - 53)))) by ring.
    rewrite <- Hpow. change (2 ^ 52) with 4503599627370496.
    change (2 ^ 53) with 9007199254740992. nia.
Qed.

(** Rounding a double to an integer. *)
Lemma floor_spec f m B : is_float f m B -> Float.floor f = Ok (Z.pos m / B).
Proof.
  intros (e & -> & He & -> & _). cbn [Float.floor Float.signed].
  now rewrite Z.shiftl_div_pow2 by lia.
Qed.

Lemma ceil_spec f m B : is_float f m B -> Float.ceil f = Ok (- (- Z.pos m / B)).
Proof.
  intros (e & -> & He & -> & _). cbn [Float.ceil Float.signed].
  now rewrite Z.shiftl_div_pow2 by lia.
Qed.

Lemma to_int_spec f m B : is_float f m B -> Float.to_int f = Ok (Z.pos m / B).
Proof.
  intros (e & -> & He & -> & _). cbn [Float.to_int].
  now rewrite Z.shiftl_div_pow2 by lia.
Qed.

(** An integer below the rational stays below the double, and its floor;
    an integer above it stays above the double, and its ceiling. *)
Lemma rounds_ge f N D m B (k : Z) :
  rounds f N D -> is_float f m B -> 0 < D -> k * D <= N -> k <= Z.pos m / B.
Proof.
  intros (m' & B' & Hf' & Hlo & Hhi) Hf HD Hk.
  destruct (is_float_inj _ _ _ _ _ Hf Hf') as [-> ->].
  pose proof (is_float_B_pos _ _ _ Hf) as HB.
  apply Z.div_le_lower_bound; [lia|].
  assert (B * k * D < (Z.pos m + 1) * D) by nia.
  assert (B * k < Z.pos m + 1) by (apply (Z.mul_lt_mono_pos_r D); lia). lia.
Qed.

Lemma rounds_le f N D m B (k : Z) :
  rounds f N D -> is_float f m B -> 0 < D -> N <= k * D -> - (- Z.pos m / B) <= k.
Proof.
  intros (m' & B' & Hf' & Hlo & Hhi) Hf HD Hk.
  destruct (is_float_inj _ _ _ _ _ Hf Hf') as [-> ->].
  pose proof (is_float_B_pos _ _ _ Hf) as HB.
  assert (- k <= - Z.pos m / B); [|lia].
  apply Z.div_le_lower_bound; [lia|].
  assert ((Z.pos m - 1) * D < B * k * D) by nia.
  assert (Z.pos m - 1 < B * k) by (apply (Z.mul_lt_mono_pos_r D); lia). lia.
Qed.

Lemma floor_le_ceil (m B : Z) : 0 < B -> m / B <= - (- m / B).
Proof.
  intros HB.
  pose proof (Z.div_mod m B ltac:(lia)). pose proof (Z.mod_pos_bound m B HB).
  pose proof (Z.div_mod (- m) B ltac:(lia)). pose proof (Z.mod_pos_bound (- m) B HB).
  nia.
Qed.

(** Comparison of doubles is comparison of their values. *)
Lemma compare_spec x y mx my Bx By :
  is_float x mx Bx -> is_float y my By ->
  SFcompare x y = Some (Z.pos mx * By ?= Z.pos my * Bx).
Proof.
  intros (ex & -> & Hex & -> & Hmx) (ey & -> & Hey & -> & Hmy).
  cbn [SFcompare]. f_equal.
  change (2 ^ 52) with 4503599627370496 in Hmx, Hmy.
  change (2 ^ 53) with 9007199254740992 in Hmx, Hmy.
  assert (HBx : 0 < 2 ^ (- ex)) by (apply Z.pow_pos_nonneg; lia).
  assert (HBy : 0 < 2 ^ (- ey)) by (apply Z.pow_pos_nonneg; lia).
  destruct (Z.compare_spec ex ey) as [Heq | Hlt | Hgt].
  - subst ey. change (Pos.compare_cont Eq mx my) with (Z.pos mx ?= Z.pos my).
    apply Zmult_compare_compat_r. lia.
  - symmetry. apply Z.compare_lt_iff.
    assert (2 * 2 ^ (- ey) <= 2 ^ (- ex)).
    { replace (- ex) with (1 + (ey - ex - 1) + - ey) by lia.
      rewrite !Z.pow_add_r by lia. change (2 ^ 1) with 2.
      assert (0 < 2 ^ (ey - ex - 1)) by (apply Z.pow_pos_nonneg; lia). nia. }
    nia.
  - symmetry. apply Z.compare_gt_iff.
    assert (2 * 2 ^ (- ex) <= 2 ^ (- ey)).
    { replace (- ey) with (1 + (ex - ey - 1) + - ex) by lia.
      rewrite !Z.pow_add_r by lia. change (2 ^ 1) with 2.
      assert (0 < 2 ^ (ex - ey - 1)) by (apply Z.pow_pos_nonneg; lia). nia. }
    nia.
Qed.

Lemma leb_spec x y mx my Bx By :
  is_float x mx Bx -> is_float y my By ->
  Float.leb x y = (Z.pos mx * By <=? Z.pos my * Bx).
Proof.
  intros Hx Hy. unfold Float.leb, SFleb. rewrite (compare_spec _ _ _ _ _ _ Hx Hy).
  unfold Z.leb. now destruct (_ ?= _).
Qed.

Lemma ltb_spec x y mx my Bx By :
  is_float x mx Bx -> is_float y my By ->
  Float.ltb x y = (Z.pos mx * By <? Z.pos my * Bx).
Proof.
  intros Hx Hy. unfold Float.ltb, SFltb. rewrite (compare_spec _ _ _ _ _ _ Hx Hy).
  unfold Z.ltb. now destruct (_ ?= _).
Qed.

(** ** Binary64: the products and quotients of the program *)

(** The literal [1.05] is [4728779608739021 / 2^52], a little above 21/20. *)
Lemma lit_1_05_is_float : is_float Float.lit_1_05 4728779608739021 (2 ^ 52).
Proof. exists (-52). repeat split; reflexivity || (cbn; lia). Qed.

(** [int(1.05 * d)] is the floor of [21 * d / 20]: below [2^45] the double
    product never crosses an integer that the rational product does not. *)
Lemma int_1_05 (d : Z) :
  0 <= d < 2 ^ 45 ->
  (f ← Float.mul_int Float.lit_1_05 d; Float.to_int f) = Ok (21 * d / 20).
Proof.
  intros [Hd0 Hd].
  destruct (Z.eq_dec d 0) as [-> | Hne]; [reflexivity|].
  destruct (of_int_spec d) as (fd & md & Bd & Hfd & Hisd & Hmd).
  { change (2 ^ 45) with 35184372088832 in Hd.
    change (2 ^ 52) with 4503599627370496. lia. }
  unfold Float.mul_int. rewrite Hfd. cbn [mbind result_bind rbind].
  pose proof (is_float_B_pos _ _ _ Hisd) as HBd.
  pose proof Hisd as (ed & _ & _ & _ & Hmdr).
  change (2 ^ 45) with 35184372088832 in Hd.
  change (2 ^ 52) with 4503599627370496 in Hmdr.
  change (2 ^ 53) with 9007199254740992 in Hmdr.
  assert (HBd' : Bd <= 2 ^ 53).
  { change (2 ^ 53) with 9007199254740992. nia. }
  pose proof (mul_spec _ _ _ _ _ _ lit_1_05_is_float Hisd) as Hr.
  change (2 ^ 52) with 4503599627370496 in Hr.
  destruct Hr as (m & B & Hf & Hlo & Hhi).
  { change (2 ^ 53) with 9007199254740992 in HBd'.
    assert (4503599627370496 * 9007199254740992 <= 2 ^ 1000) by (vm_compute; discriminate).
    nia. }
  { rewrite Hmd. nia. }
  rewrite (to_int_spec _ _ _ Hf). f_equal.
  pose proof (is_float_B_pos _ _ _ Hf) as HB.
  pose proof Hf as (e & _ & _ & _ & Hmr).
  change (2 ^ 52) with 4503599627370496 in Hmr.
  change (2 ^ 53) with 9007199254740992 in Hmr.
  rewrite Hmd in Hlo, Hhi.
  (* cancel the denominator of [float(d)] *)
  assert (Hlo' : (Z.pos m - 1) * 4503599627370496 < 4728779608739021 * d * B).
  { apply (Z.mul_lt_mono_pos_r Bd); [lia|]. nia. }
  assert (Hhi' : 4728779608739021 * d * B < (Z.pos m + 1) * 4503599627370496).
  { apply (Z.mul_lt_mono_pos_r Bd); [lia|]. nia. }
  assert (HX : d * B <= 35184372088831 * B).
  { apply Z.mul_le_mono_nonneg_r; lia. }
  assert (HX0 : 0 <= d * B) by (apply Z.mul_nonneg_nonneg; lia).
  assert (HB64 : 64 <= B) by lia.
  pose proof (Z.div_mod (21 * d) 20 ltac:(lia)) as Hdm.
  pose proof (Z.mod_pos_bound (21 * d) 20 ltac:(lia)) as Hmod.
  set (k := 21 * d / 20) in *. set (r := (21 * d) mod 20) in *.
  assert (H21 : 21 * (d * B) = 20 * (k * B) + r * B).
  { transitivity (21 * d * B); [ring|]. rewrite Hdm. ring. }
  assert (HrB : 0 <= r * B <= 19 * B).
  { split; [apply Z.mul_nonneg_nonneg | apply Z.mul_le_mono_nonneg_r]; lia. }
  apply Z.le_antisymm.
  - assert (Z.pos m / B < k + 1); [|lia].
    apply Z.div_lt_upper_bound; lia.
  - apply Z.div_le_lower_bound; lia.
Qed.

(** The powers of two that bound the statements, as numerals. *)
Ltac pow2_consts :=
  change (2 ^ 26) with 67108864 in *;
  change (2 ^ 45) with 35184372088832 in *;
  change (2 ^ 52) with 4503599627370496 in *;
  change (2 ^ 53) with 9007199254740992 in *.

Lemma pow2_1000_big : 2 ^ 110 <= 2 ^ 1000.
Proof. apply Z.pow_le_mono_r; lia. Qed.

(** The mantissa of a double of the first predicate. *)
Lemma is_float_range f m B :
  is_float f m B -> 4503599627370496 <= Z.pos m < 9007199254740992 /\ 0 < B.
Proof.
  intros Hf. pose proof (is_float_B_pos _ _ _ Hf).
  destruct Hf as (e & _ & _ & _ & Hm). pow2_consts. lia.
Qed.

(** Conversions and quotients of small integers do not raise. *)
Lemma of_int_ok (n : Z) :
  0 <= n < 2 ^ 52 -> exists f, Float.of_int n = Ok f.
Proof.
  intros [Hn0 Hn]. destruct (Z.eq_dec n 0) as [-> | Hne].
  - eexists. reflexivity.
  - destruct (of_int_spec n) as (f & _ & _ & Hf & _); [lia|]. now exists f.
Qed.

Lemma int_truediv_ok (n d : Z) :
  0 <= n < 2 ^ 52 -> 0 < d < 2 ^ 52 -> exists f, Float.int_truediv n d = Ok f.
Proof.
  intros Hn Hd. unfold Float.int_truediv.
  destruct (Z.eqb_spec d 0); [lia|].
  destruct (of_int_ok n Hn) as (fn & ->).
  destruct (of_int_ok d) as (fd & ->); [lia|].
  eexists. reflexivity.
Qed.

(** [n / d] on ints is a double around the rational [n / d]. *)
Lemma int_truediv_rounds (n d : Z) :
  0 < n < 2 ^ 52 -> 0 < d < 2 ^ 52 ->
  exists f, Float.int_truediv n d = Ok f /\ rounds f n d.
Proof.
  intros Hn Hd. unfold Float.int_truediv.
  destruct (Z.eqb_spec d 0); [lia|].
  destruct (of_int_spec n Hn) as (fn & mn & Bn & -> & Hfn & Hmn).
  destruct (of_int_spec d Hd) as (fd & md & Bd & -> & Hfd & Hmd).
  cbn [mbind result_bind rbind]. eexists. split; [reflexivity|].
  pose proof (is_float_range _ _ _ Hfn) as [Hrn HBn].
  pose proof (is_float_range _ _ _ Hfd) as [Hrd HBd].
  pose proof pow2_1000_big as Hbig. change (2 ^ 110) with 1298074214633706907132624082305024 in Hbig.
  pow2_consts.
  apply (rounds_eqv _ _ _ (Z.pos mn * Bd) (Z.pos md * Bn)); [lia | nia | |].
  - rewrite Hmn, Hmd. ring.
  - apply div_spec; [assumption | assumption | nia | nia |].
    pow2_consts. rewrite Hmn, Hmd.
    replace (n * Bn * Bd) with (n * (Bn * Bd)) by ring.
    replace (4503599627370496 * (d * Bd * Bn)) with (4503599627370496 * d * (Bn * Bd)) by ring.
    apply Z.mul_lt_mono_pos_r; nia.
Qed.

(** [n * a] and [n / a] for an int [n] and a double [a]. *)
Lemma int_mul_rounds (n : Z) (a : Float.float) (ma : positive) (Ba : Z) :
  is_float a ma Ba -> 0 < n < 2 ^ 52 -> Ba <= 2 ^ 110 ->
  n * Z.pos ma < 2 ^ 52 * Ba ->
  exists f, Float.int_mul n a = Ok f /\ rounds f (n * Z.pos ma) Ba.
Proof.
  intros Ha Hn HBa Hv. unfold Float.int_mul.
  destruct (of_int_spec n Hn) as (fn & mn & Bn & -> & Hfn & Hmn).
  cbn [mbind result_bind rbind]. eexists. split; [reflexivity|].
  pose proof (is_float_range _ _ _ Hfn) as [Hrn HBn].
  pose proof (is_float_range _ _ _ Ha) as [Hra HBa0].
  pose proof pow2_1000_big as Hbig.
  assert (Hbig' : 2 ^ 54 * 2 ^ 110 <= 2 ^ 1000).
  { rewrite <- Z.pow_add_r by lia. apply Z.pow_le_mono_r; lia. }
  change (2 ^ 54) with 18014398509481984 in Hbig'.
  pow2_consts.
  apply (rounds_eqv _ _ _ (Z.pos mn * Z.pos ma) (Bn * Ba)); [lia | nia | |].
  - rewrite Hmn. ring.
  - apply mul_spec; [assumption | assumption | |].
    + assert (Bn <= 18014398509481984) by nia. nia.
    + pow2_consts. rewrite Hmn.
      replace (n * Bn * Z.pos ma) with (n * Z.pos ma * Bn) by ring.
      replace (4503599627370496 * (Bn * Ba)) with (4503599627370496 * Ba * Bn) by ring.
      apply Z.mul_lt_mono_pos_r; lia.
Qed.

Lemma int_div_rounds (n : Z) (a : Float.float) (ma : positive) (Ba : Z) :
  is_float a ma Ba -> 0 < n < 2 ^ 52 -> Ba <= 2 ^ 110 ->
  n * Ba < 2 ^ 52 * Z.pos ma ->
  exists f, Float.int_div n a = Ok f /\ rounds f (n * Ba) (Z.pos ma).
Proof.
  intros Ha Hn HBa Hv. unfold Float.int_div.
  destruct (of_int_spec n Hn) as (fn & mn & Bn & -> & Hfn & Hmn).
  cbn [mbind result_bind rbind]. unfold Float.truediv.
  assert (Hz : Float.is_zero a = false) by (destruct Ha as (e & -> & _); reflexivity).
  rewrite Hz. eexists. split; [reflexivity|].
  pose proof (is_float_range _ _ _ Hfn) as [Hrn HBn].
  pose proof (is_float_range _ _ _ Ha) as [Hra HBa0].
  pose proof pow2_1000_big as Hbig.
  pow2_consts.
  apply (rounds_eqv _ _ _ (Z.pos mn * Ba) (Z.pos ma * Bn)); [lia | nia | |].
  - rewrite Hmn. ring.
  - apply div_spec; [assumption | assumption | nia | nia |].
    pow2_consts. rewrite Hmn.
    replace (n * Bn * Ba) with (n * Ba * Bn) by ring.
    replace (4503599627370496 * (Z.pos ma * Bn)) with (4503599627370496 * Z.pos ma * Bn) by ring.
    apply Z.mul_lt_mono_pos_r; lia.
Qed.

(** ** The arithmetic of the thumbnail *)

(** The integer facts behind the thumbnail's size: [ma / Ba] is the double
    around [w / h], [cap] the box. *)
Section AspectArith.

Variables w h cap ma Ba : Z.
Hypothesis Hw : 1 <= w < 67108864.
Hypothesis Hh : 1 <= h < 67108864.
Hypothesis Hcap : 1 <= cap.
Hypothesis Hma : 4503599627370496 <= ma < 9007199254740992.
Hypothesis HBa : 0 < Ba.
Hypothesis Hlo : (ma - 1) * h < w * Ba.
Hypothesis Hhi : w * Ba < (ma + 1) * h.

(** The denominator of [aspect] is large, and not too large. *)
Lemma aspect_den_lower : 67108864 * h < Ba.
Proof.
  destruct (Z.lt_ge_cases (67108864 * h) Ba) as [|Hge]; [assumption|exfalso].
  assert (w * Ba <= 67108863 * (67108864 * h)).
  { transitivity (67108863 * Ba).
    - apply Z.mul_le_mono_nonneg_r; lia.
    - apply Z.mul_le_mono_nonneg_l; lia. }
  assert (4503599627370495 * h <= (ma - 1) * h).
  { apply Z.mul_le_mono_nonneg_r; lia. }
  lia.
Qed.

Lemma aspect_den_upper : Ba <= 2 ^ 110.
Proof.
  change (2 ^ 110) with 1298074214633706907132624082305024.
  assert (1 * Ba <= w * Ba) by (apply Z.mul_le_mono_nonneg_r; lia).
  assert ((ma + 1) * h <= 9007199254740992 * 67108864).
  { apply Z.mul_le_mono_nonneg; lia. }
  lia.
Qed.

(** The test [x / y >= aspect], with [x = y]: the double is at most one
    exactly when the image is not wider than high. *)
Lemma aspect_le_one : ma <= Ba <-> w <= h.
Proof.
  pose proof aspect_den_lower as Hden. split; intros H.
  - destruct (Z.le_gt_cases w h) as [|Hgt]; [assumption|exfalso].
    assert ((h + 1) * Ba <= w * Ba) by (apply Z.mul_le_mono_nonneg_r; lia).
    assert ((ma + 1) * h <= (Ba + 1) * h) by (apply Z.mul_le_mono_nonneg_r; lia).
    lia.
  - assert (w * Ba <= h * Ba) by (apply Z.mul_le_mono_nonneg_r; lia).
    assert ((ma - 1) * h < Ba * h) by lia.
    assert (ma - 1 < Ba) by (apply (Z.mul_lt_mono_pos_r h); lia).
    lia.
Qed.

(** Portrait or square: [w <= h], and the box is lower than the image. *)
Section Portrait.
Hypothesis Hwh : w <= h.
Hypothesis Hcaph : cap < h.

(** The product [cap * aspect]: its range, its integer bounds, and the
    floor and ceiling of [cap * w / h] around it. *)
Lemma portrait_value : cap * ma < 4503599627370496 * Ba.
Proof.
  assert (ma <= Ba) by (apply aspect_le_one; assumption).
  assert (cap * ma <= cap * Ba) by (apply Z.mul_le_mono_nonneg_l; lia).
  assert (cap * Ba < 4503599627370496 * Ba) by (apply Z.mul_lt_mono_pos_r; lia).
  lia.
Qed.

Lemma portrait_le_cap : cap * ma <= cap * Ba.
Proof.
  assert (ma <= Ba) by (apply aspect_le_one; assumption).
  apply Z.mul_le_mono_nonneg_l; lia.
Qed.

Lemma portrait_le_w : cap * ma <= w * Ba.
Proof.
  assert (cap * ma <= (h - 1) * ma) by (apply Z.mul_le_mono_nonneg_r; lia).
  lia.
Qed.

Lemma portrait_floor : (cap * w - 1) / h * Ba <= cap * ma.
Proof.
  pose proof aspect_den_lower as Hden.
  pose proof (Z.div_mod (cap * w - 1) h ltac:(lia)) as Hdm.
  pose proof (Z.mod_pos_bound (cap * w - 1) h ltac:(lia)) as Hmod.
  set (k := (cap * w - 1) / h) in *.
  assert (Hk0 : 0 <= k) by (apply Z.div_pos; nia).
  assert (Hcaph' : cap * h <= Ba).
  { assert (cap * h <= 67108864 * h) by (apply Z.mul_le_mono_nonneg_r; lia). lia. }
  assert (H1 : h * k * Ba <= (cap * w - 1) * Ba).
  { apply Z.mul_le_mono_nonneg_r; lia. }
  assert (H2 : cap * (w * Ba) < cap * ((ma + 1) * h)).
  { apply Z.mul_lt_mono_pos_l; lia. }
  assert (H3 : k * Ba * h < cap * ma * h) by lia.
  assert (k * Ba < cap * ma) by (apply (Z.mul_lt_mono_pos_r h); lia).
  lia.
Qed.

Lemma portrait_ceil : cap * ma <= (cap * w / h + 1) * Ba.
Proof.
  pose proof aspect_den_lower as Hden.
  pose proof (Z.div_mod (cap * w) h ltac:(lia)) as Hdm.
  pose proof (Z.mod_pos_bound (cap * w) h ltac:(lia)) as Hmod.
  set (k := cap * w / h) in *.
  assert (Hcaph' : cap * h <= Ba).
  { assert (cap * h <= 67108864 * h) by (apply Z.mul_le_mono_nonneg_r; lia). lia. }
  assert (H1 : (cap * w + 1) * Ba <= (h * k + h) * Ba).
  { apply Z.mul_le_mono_nonneg_r; lia. }
  assert (H2 : cap * ((ma - 1) * h) < cap * (w * Ba)).
  { apply Z.mul_lt_mono_pos_l; lia. }
  assert (H3 : cap * ma * h < (k + 1) * Ba * h) by lia.
  assert (cap * ma < (k + 1) * Ba) by (apply (Z.mul_lt_mono_pos_r h); lia).
  lia.
Qed.

End Portrait.

(** Landscape: [h < w], and the box is narrower than the image. *)
Section Landscape.
Hypothesis Hwh : h < w.
Hypothesis Hcapw : cap < w.

(** The quotient [cap / aspect]: the same facts, for [cap * h / w]. *)
Lemma landscape_num_lt : Ba < ma.
Proof.
  destruct (Z.lt_ge_cases Ba ma) as [|Hge]; [assumption|].
  assert (w <= h) by (apply aspect_le_one; lia). lia.
Qed.

Lemma landscape_value : cap * Ba < 4503599627370496 * ma.
Proof.
  pose proof landscape_num_lt.
  assert (cap * Ba <= cap * ma) by (apply Z.mul_le_mono_nonneg_l; lia).
  assert (cap * ma < 4503599627370496 * ma) by (apply Z.mul_lt_mono_pos_r; lia).
  lia.
Qed.

Lemma landscape_le_cap : cap * Ba <= cap * ma.
Proof.
  pose proof landscape_num_lt. apply Z.mul_le_mono_nonneg_l; lia.
Qed.

Lemma landscape_le_h : cap * Ba <= h * ma.
Proof.
  pose proof aspect_den_lower as Hden.
  assert (cap * Ba <= (w - 1) * Ba) by (apply Z.mul_le_mono_nonneg_r; lia).
  lia.
Qed.

Lemma landscape_floor : (cap * h - 1) / w * ma <= cap * Ba.
Proof.
  pose proof (Z.div_mod (cap * h - 1) w ltac:(lia)) as Hdm.
  pose proof (Z.mod_pos_bound (cap * h - 1) w ltac:(lia)) as Hmod.
  set (k := (cap * h - 1) / w) in *.
  assert (Hk0 : 0 <= k) by (apply Z.div_pos; nia).
  assert (Hcaph' : cap * h <= ma).
  { assert (cap * h <= 67108864 * 67108864) by (apply Z.mul_le_mono_nonneg; lia). lia. }
  assert (H1 : w * k * ma <= (cap * h - 1) * ma).
  { apply Z.mul_le_mono_nonneg_r; lia. }
  assert (H2 : cap * ((ma - 1) * h) < cap * (w * Ba)).
  { apply Z.mul_lt_mono_pos_l; lia. }
  assert (H3 : k * ma * w < cap * Ba * w) by lia.
  assert (k * ma < cap * Ba) by (apply (Z.mul_lt_mono_pos_r w); lia).
  lia.
Qed.

Lemma landscape_ceil : cap * Ba <= (cap * h / w + 1) * ma.
Proof.
  pose proof (Z.div_mod (cap * h) w ltac:(lia)) as Hdm.
  pose proof (Z.mod_pos_bound (cap * h) w ltac:(lia)) as Hmod.
  set (k := cap * h / w) in *.
  assert (Hcaph' : cap * h <= ma).
  { assert (cap * h <= 67108864 * 67108864) by (apply Z.mul_le_mono_nonneg; lia). lia. }
  assert (H1 : (cap * h + 1) * ma <= (w * k + w) * ma).
  { apply Z.mul_le_mono_nonneg_r; lia. }
  assert (H2 : cap * (w * Ba) < cap * ((ma + 1) * h)).
  { apply Z.mul_lt_mono_pos_l; lia. }
  assert (H3 : cap * Ba * w < (k + 1) * ma * w) by lia.
  assert (cap * Ba < (k + 1) * ma) by (apply (Z.mul_lt_mono_pos_r w); lia).
  lia.
Qed.

End Landscape.

End AspectArith.

(** From the floor and the ceiling to the rounded edge: [x'] is within one
    pixel of [cap * w / h]. *)
Lemma rounded_edge (w h cap lo hi x' : Z) :
  1 <= w -> 1 <= h -> 1 <= cap ->
  0 <= lo <= hi -> hi <= cap -> hi <= w ->
  (cap * w - 1) / h <= lo -> hi <= cap * w / h + 1 ->
  x' = Z.max lo 1 \/ x' = Z.max hi 1 ->
  1 <= x' <= Z.min cap w /\ Z.abs (x' * h - cap * w) <= h.
Proof.
  intros Hw Hh Hcap Hlohi Hhc Hhw Hlo Hhi Hx.
  pose proof (Z.div_mod (cap * w - 1) h ltac:(lia)) as Hdm1.
  pose proof (Z.mod_pos_bound (cap * w - 1) h ltac:(lia)) as Hmod1.
  pose proof (Z.div_mod (cap * w) h ltac:(lia)) as Hdm2.
  pose proof (Z.mod_pos_bound (cap * w) h ltac:(lia)) as Hmod2.
  set (k1 := (cap * w - 1) / h) in *. set (k2 := cap * w / h) in *.
  assert (H1 : k1 * h <= lo * h) by (apply Z.mul_le_mono_nonneg_r; lia).
  assert (H2 : hi * h <= (k2 + 1) * h) by (apply Z.mul_le_mono_nonneg_r; lia).
  assert (H3 : lo * h <= hi * h) by (apply Z.mul_le_mono_nonneg_r; lia).
  assert (H4 : 0 <= cap * w) by nia.
  assert (H5 : (Z.max lo 1) * h <= (Z.max hi 1) * h).
  { apply Z.mul_le_mono_nonneg_r; lia. }
  assert (H6 : lo * h <= Z.max lo 1 * h) by (apply Z.mul_le_mono_nonneg_r; lia).
  assert (H7 : Z.max hi 1 * h <= hi * h \/ Z.max hi 1 = 1) by lia.
  split; [lia|].
  destruct Hx as [-> | ->]; destruct H7 as [H7 | H7]; try rewrite H7 in *; lia.
Qed.

(** Floor and ceiling of a non-negative fraction. *)
Lemma ceil_bounds (m B : Z) :
  0 < B -> 0 <= m -> 0 <= m / B <= - (- m / B) /\ - (- m / B) * B < m + B.
Proof.
  intros HB Hm.
  pose proof (Z.div_mod m B ltac:(lia)). pose proof (Z.mod_pos_bound m B HB).
  pose proof (Z.div_mod (- m) B ltac:(lia)). pose proof (Z.mod_pos_bound (- m) B HB).
  assert (0 <= m / B) by (apply Z.div_pos; lia).
  nia.
Qed.

(** [round_aspect] returns the floor or the ceiling of its argument, and at
    least 1. *)
Lemma round_aspect_spec number key m B :
  is_float number m B ->
  (forall n, 0 <= n <= - (- Z.pos m / B) -> exists f, key n = Ok f) ->
  exists r, round_aspect number key = Ok r /\
            (r = Z.max (Z.pos m / B) 1 \/ r = Z.max (- (- Z.pos m / B)) 1).
Proof.
  intros Hf Hkey. unfold round_aspect.
  rewrite (floor_spec _ _ _ Hf), (ceil_spec _ _ _ Hf).
  cbn [mbind result_bind rbind].
  pose proof (is_float_B_pos _ _ _ Hf) as HB.
  pose proof (ceil_bounds (Z.pos m) B HB ltac:(lia)) as [Hfc _].
  destruct (Hkey (Z.pos m / B)) as (klo & ->); [lia|].
  destruct (Hkey (- (- Z.pos m / B))) as (khi & ->); [lia|].
  cbn [mbind result_bind rbind].
  destruct (Float.ltb khi klo); eexists; (split; [reflexivity|]); [right | left];
    reflexivity.
Qed.

(** The size of the thumbnail, for a box of at least one pixel and an image
    with sides below [2^26]: the computation does not raise, and the size
    it returns fits the box, does not exceed the image, and keeps the
    proportion up to one pixel. *)
Lemma preserve_aspect_ratio_spec (w h cap : Z) :
  1 <= w < 2 ^ 26 -> 1 <= h < 2 ^ 26 -> 1 <= cap ->
  exists r, preserve_aspect_ratio w h cap cap = Ok r /\ thumb_size_ok w h cap r.
Proof.
  intros Hw Hh Hcap. unfold preserve_aspect_ratio.
  destruct ((cap >=? w) && (cap >=? h)) eqn:Hfit.
  { exists None. split; [reflexivity|]. cbn. lia. }
  assert (Hbig : cap < w \/ cap < h) by lia.
  pow2_consts.
  destruct (int_truediv_rounds w h) as (a & -> & ma & Ba & Ha & Halo & Hahi);
    [pow2_consts; lia | pow2_consts; lia |].
  destruct (int_truediv_rounds cap cap) as (xy & -> & m1 & B1 & H1 & H1lo & H1hi);
    [pow2_consts; lia | pow2_consts; lia |].
  cbn [mbind result_bind rbind].
  rewrite (leb_spec _ _ _ _ _ _ Ha H1).
  pose proof (is_float_range _ _ _ Ha) as [Hra HBa].
  pose proof (is_float_range _ _ _ H1) as [Hr1 HB1].
  assert (Hone : Z.pos m1 = B1).
  { assert (Z.pos m1 - 1 < B1 < Z.pos m1 + 1); [|lia].
    split; apply (Z.mul_lt_mono_pos_r cap); lia. }
  rewrite Hone, (Z.mul_comm B1 Ba).
  pose proof (aspect_den_upper w h (Z.pos ma) Ba Hw Hh Hra HBa Hahi) as HBa_hi.
  pose proof (aspect_le_one w h (Z.pos ma) Ba Hw Hh Hra HBa Halo Hahi) as Hone_iff.
  destruct (Z.leb_spec (Z.pos ma * B1) (Ba * B1)) as [Hle | Hgt].
  - (* portrait or square: the height is the cap *)
    assert (Hma : Z.pos ma <= Ba) by (apply (Z.mul_le_mono_pos_r _ _ B1); lia).
    assert (Hwh : w <= h) by (apply Hone_iff; exact Hma).
    assert (Hcaph : cap < h) by lia.
    assert (Hv : cap * Z.pos ma < 4503599627370496 * Ba)
      by (apply (portrait_value w h cap); assumption).
    assert (Hc : cap * Z.pos ma <= cap * Ba)
      by (apply (portrait_le_cap w h cap); assumption).
    assert (Hcw : cap * Z.pos ma <= w * Ba)
      by (apply (portrait_le_w w h cap); assumption).
    assert (Hfl : (cap * w - 1) / h * Ba <= cap * Z.pos ma)
      by (apply (portrait_floor w h cap); assumption).
    assert (Hce : cap * Z.pos ma <= (cap * w / h + 1) * Ba)
      by (apply (portrait_ceil w h cap); assumption).
    destruct (int_mul_rounds cap a ma Ba Ha) as (number & -> & Hnum);
      [pow2_consts; lia | exact HBa_hi | pow2_consts; exact Hv |].
    cbn [mbind result_bind rbind].
    pose proof Hnum as (mn & Bn & Hn & _).
    pose proof (is_float_range _ _ _ Hn) as [Hrn HBn].
    pose proof (ceil_bounds (Z.pos mn) Bn HBn ltac:(lia)) as [Hfc _].
    assert (Hhi_cap : - (- Z.pos mn / Bn) <= cap).
    { apply (rounds_le _ _ _ _ _ cap Hnum Hn); [lia | exact Hc]. }
    assert (Hhi_w : - (- Z.pos mn / Bn) <= w).
    { apply (rounds_le _ _ _ _ _ w Hnum Hn); [lia | exact Hcw]. }
    assert (Hlo_asp : (cap * w - 1) / h <= Z.pos mn / Bn).
    { apply (rounds_ge _ _ _ _ _ _ Hnum Hn); [lia | exact Hfl]. }
    assert (Hhi_asp : - (- Z.pos mn / Bn) <= cap * w / h + 1).
    { apply (rounds_le _ _ _ _ _ _ Hnum Hn); [lia | exact Hce]. }
    destruct (round_aspect_spec number
                (fun n => q ← Float.int_truediv n cap;
                          Ok (Float.abs (Float.sub a q))) mn Bn Hn)
      as (x' & -> & Hx').
    { intros n Hn'.
      destruct (int_truediv_ok n cap) as (q & ->); [pow2_consts; lia .. |].
      eexists. reflexivity. }
    cbn [mbind result_bind rbind]. eexists. split; [reflexivity|].
    destruct (rounded_edge w h cap _ _ x' ltac:(lia) ltac:(lia) Hcap Hfc
                Hhi_cap Hhi_w Hlo_asp Hhi_asp Hx') as [Hx1 Hx2].
    cbn [thumb_size_ok]. split; [exact Hbig|]. repeat split; lia.
  - (* landscape: the width is the cap *)
    assert (Hma : Ba < Z.pos ma) by (apply (Z.mul_lt_mono_pos_r B1); lia).
    assert (Hwh : h < w).
    { destruct (Z.lt_ge_cases h w) as [|Hge]; [assumption|].
      assert (Z.pos ma <= Ba) by (apply Hone_iff; lia). lia. }
    assert (Hcapw : cap < w) by lia.
    assert (Hv : cap * Ba < 4503599627370496 * Z.pos ma)
      by (apply (landscape_value w h cap); assumption).
    assert (Hc : cap * Ba <= cap * Z.pos ma)
      by (apply (landscape_le_cap w h cap); assumption).
    assert (Hch : cap * Ba <= h * Z.pos ma)
      by (apply (landscape_le_h w h cap); assumption).
    assert (Hfl : (cap * h - 1) / w * Z.pos ma <= cap * Ba)
      by (apply (landscape_floor w h cap); assumption).
    assert (Hce : cap * Ba <= (cap * h / w + 1) * Z.pos ma)
      by (apply (landscape_ceil w h cap); assumption).
    destruct (int_div_rounds cap a ma Ba Ha) as (number & -> & Hnum);
      [pow2_consts; lia | exact HBa_hi | pow2_consts; exact Hv |].
    cbn [mbind result_bind rbind].
    pose proof Hnum as (mn & Bn & Hn & _).
    pose proof (is_float_range _ _ _ Hn) as [Hrn HBn].
    pose proof (ceil_bounds (Z.pos mn) Bn HBn ltac:(lia)) as [Hfc _].
    assert (Hhi_cap : - (- Z.pos mn / Bn) <= cap).
    { apply (rounds_le _ _ _ _ _ cap Hnum Hn); [lia | exact Hc]. }
    assert (Hhi_h : - (- Z.pos mn / Bn) <= h).
    { apply (rounds_le _ _ _ _ _ h Hnum Hn); [lia | exact Hch]. }
    assert (Hlo_asp : (cap * h - 1) / w <= Z.pos mn / Bn).
    { apply (rounds_ge _ _ _ _ _ _ Hnum Hn); [lia | exact Hfl]. }
    assert (Hhi_asp : - (- Z.pos mn / Bn) <= cap * h / w + 1).
    { apply (rounds_le _ _ _ _ _ _ Hnum Hn); [lia | exact Hce]. }
    destruct (round_aspect_spec number
                (fun n => if n =? 0 then Ok Float.zero
                          else q ← Float.int_truediv cap n;
                               Ok (Float.abs (Float.sub a q))) mn Bn Hn)
      as (y' & -> & Hy').
    { intros n Hn'.
      destruct (Z.eqb_spec n 0); [eexists; reflexivity|].
      destruct (int_truediv_ok cap n) as (q & ->); [pow2_consts; lia .. |].
      eexists. reflexivity. }
    cbn [mbind result_bind rbind]. eexists. split; [reflexivity|].
    destruct (rounded_edge h w cap _ _ y' ltac:(lia) ltac:(lia) Hcap Hfc
                Hhi_cap Hhi_h Hlo_asp Hhi_asp Hy') as [Hy1 Hy2].
    cbn [thumb_size_ok]. split; [exact Hbig|]. repeat split; lia.
Qed.

(** ** The cap, for any double in place of 0.25 *)

(** [int(n * logo_size)] for a double [logo_size = m / B] at most 1 (and at
    least [2^-58]): the exact product rounded down or up to an integer. *)
Lemma logo_max_size_spec (W H : Z) (ls : Float.float) (m : positive) (B : Z) :
  is_float ls m B -> Z.pos m <= B -> B <= 2 ^ 110 ->
  1 <= W < 2 ^ 52 -> 1 <= H < 2 ^ 52 ->
  exists cap,
    logo_max_size W H ls = Ok cap /\
    Z.min W H * Z.pos m / B <= cap <= - (- (Z.min W H * Z.pos m) / B).
Proof.
  intros Hls Hle HB HW HH. unfold logo_max_size.
  set (n := Z.min W H). assert (Hn : 1 <= n < 2 ^ 52) by (unfold n; lia).
  pose proof (is_float_range _ _ _ Hls) as [Hm HB0].
  destruct (int_mul_rounds n ls m B Hls) as (f & -> & Hf); [lia | exact HB | |].
  { assert (n * Z.pos m <= n * B) by (apply Z.mul_le_mono_nonneg_l; lia).
    assert (n * B < 2 ^ 52 * B) by (apply Z.mul_lt_mono_pos_r; lia). lia. }
  cbn [mbind result_bind rbind].
  pose proof Hf as (mf & Bf & Hff & _).
  rewrite (to_int_spec _ _ _ Hff). eexists. split; [reflexivity|].
  pose proof (is_float_range _ _ _ Hff) as [Hmf HBf].
  pose proof (ceil_bounds (Z.pos mf) Bf HBf ltac:(lia)) as [Hfc _].
  pose proof (Z.div_mod (n * Z.pos m) B ltac:(lia)) as Hdm.
  pose proof (Z.mod_pos_bound (n * Z.pos m) B HB0) as Hmod.
  pose proof (Z.div_mod (- (n * Z.pos m)) B ltac:(lia)) as Hdm'.
  pose proof (Z.mod_pos_bound (- (n * Z.pos m)) B HB0) as Hmod'.
  split.
  - apply (rounds_ge _ _ _ _ _ _ Hf Hff); [lia|]. lia.
  - transitivity (- (- Z.pos mf / Bf)); [lia|].
    apply (rounds_le _ _ _ _ _ _ Hf Hff); [lia|]. lia.
Qed.

(** The cap against the symbol's shorter side. *)
Lemma logo_max_size_bounds (W H : Z) (ls : Float.float) (m : positive) (B : Z) :
  is_float ls m B -> Z.pos m <= B -> B <= 2 ^ 110 ->
  1 <= W < 2 ^ 52 -> 1 <= H < 2 ^ 52 ->
  exists cap,
    logo_max_size W H ls = Ok cap /\
    Z.min W H * Z.pos m / B <= cap <= - (- (Z.min W H * Z.pos m) / B) /\
    0 <= cap <= Z.min W H /\
    (B <= Z.min W H * Z.pos m -> 1 <= cap).
Proof.
  intros Hls Hle HB HW HH.
  destruct (logo_max_size_spec W H ls m B Hls Hle HB HW HH)
    as (cap & Hcap & Hlo & Hhi).
  pose proof (is_float_range _ _ _ Hls) as [Hm HB0].
  set (n := Z.min W H) in *. assert (Hn : 1 <= n) by (unfold n; lia).
  assert (Hnm : 0 <= n * Z.pos m <= n * B).
  { split; [apply Z.mul_nonneg_nonneg; lia|].
    apply Z.mul_le_mono_nonneg_l; lia. }
  assert (Hfloor : 0 <= n * Z.pos m / B) by (apply Z.div_pos; lia).
  assert (Hceil : - (- (n * Z.pos m) / B) <= n).
  { assert (- n <= - (n * Z.pos m) / B); [|lia].
    apply Z.div_le_lower_bound; lia. }
  exists cap. split; [exact Hcap|]. split; [lia|]. split; [lia|].
  intros Hone. assert (1 <= n * Z.pos m / B); [|lia].
  apply Z.div_le_lower_bound; lia.
Qed.

(** A [logo_size] of at least one pixel of a side below [2^52] is no
    smaller than [2^-58]. *)
Lemma is_float_B_le (ls : Float.float) (m : positive) (B n : Z) :
  is_float ls m B -> 0 <= n < 2 ^ 52 -> B <= n * Z.pos m -> B <= 2 ^ 110.
Proof.
  intros (e & _ & _ & _ & Hm) Hn HB.
  assert (n * Z.pos m <= 2 ^ 52 * 2 ^ 53).
  { apply Z.mul_le_mono_nonneg; lia. }
  change (2 ^ 52 * 2 ^ 53) with (2 ^ 105) in *.
  assert (2 ^ 105 <= 2 ^ 110) by (apply Z.pow_le_mono_r; lia). lia.
Qed.

(** ** The program *)

Section Properties.

Variable resample : Image -> Z -> Z -> Z -> Z -> pixel.
Variable blend : pixel -> pixel -> pixel.
Variable render : string -> Z -> Z -> Z -> string -> string -> result Image.
Variable save_handler : string -> result (Image -> result Image).

Local Abbreviation thumbnail := (thumbnail resample).
Local Abbreviation paste := (paste blend).
Local Abbreviation add_logo := (add_logo resample blend).
Local Abbreviation compose := (compose resample blend).
Local Abbreviation Image_save := (Image_save save_handler).
Local Abbreviation generate :=
  (generate_qr_code_for_link resample blend render save_handler).
Local Abbreviation symbol_of a :=
  (make_symbol render (link a) (version a) (box_size a) (border a)
     (fill_color a) (back_color a)).

(** *** The shape of a run *)

Lemma paste_size (img src : Image) (pos : Z * Z) :
  size (paste img src pos) = size img.
Proof. destruct pos. reflexivity. Qed.

(** A successful [add_logo] is two pastes onto the symbol: the plate, then
    the logo, each at its centring offset. *)
Lemma add_logo_Ok (img logo out : Image) (b : Z) (ls : Float.float) :
  add_logo img logo b ls = Ok out ->
  exists cap logo' bw bh plate,
    logo_max_size (width img) (height img) ls = Ok cap /\
    thumbnail logo cap cap = Ok logo' /\
    bbox_dim (width logo') b = Ok bw /\
    bbox_dim (height logo') b = Ok bh /\
    Image_new bw bh (255, 255, 255) = Ok plate /\
    out = paste
            (paste img plate (center (width img) bw, center (height img) bh))
            logo'
            (center (width img) (width logo'), center (height img) (height logo')).
Proof.
  unfold add_logo. cbn [size]. intros H.
  res_inv H. rename a into cap.
  res_inv H. rename a into logo'.
  res_inv H. rename a into bw.
  res_inv H. rename a into bh.
  res_inv H. rename a into plate.
  injection H as <-.
  exists cap, logo', bw, bh, plate. repeat split; assumption.
Qed.

Lemma add_logo_size (img logo out : Image) (b : Z) (ls : Float.float) :
  add_logo img logo b ls = Ok out -> size out = size img.
Proof.
  intros H. apply add_logo_Ok in H.
  destruct H as (cap & logo' & bw & bh & plate & _ & _ & _ & _ & _ & ->).
  now rewrite !paste_size.
Qed.

(** [compose] reads the file system and never writes it. *)
Lemma compose_fs (a : Args) (img : Image) (fs : FS) :
  snd (compose a img fs) = fs.
Proof.
  unfold compose. destruct (logo_path a) as [p|]; [|reflexivity].
  unfold mbind, IO_bind, bind, Image_open.
  destruct (files fs !! resolve fs p) as [[im| |]|]; reflexivity.
Qed.

(** [compose] depends on the file system through the logo file only. *)
Lemma compose_ext (a : Args) (img : Image) (fs fs' : FS) :
  (forall p, logo_path a = Some p ->
             files fs' !! resolve fs' p = files fs !! resolve fs p) ->
  fst (compose a img fs') = fst (compose a img fs).
Proof.
  intros H. unfold compose. destruct (logo_path a) as [p|]; [|reflexivity].
  unfold mbind, IO_bind, bind, Image_open. rewrite (H p eq_refl).
  destruct (files fs !! resolve fs p) as [[im| |]|]; reflexivity.
Qed.

(** With a logo that [Image.open] reads, the composition is [add_logo]. *)
Lemma compose_with_logo (a : Args) (fs : FS) (sym logo : Image) (p : string) :
  logo_path a = Some p -> files fs !! resolve fs p = Some (ImageFile logo) ->
  fst (compose a sym fs) = add_logo sym logo (box_size a) (logo_size a).
Proof.
  intros Hlogo Hfile. unfold compose. rewrite Hlogo.
  unfold mbind, IO_bind, bind, Image_open, lift. now rewrite Hfile.
Qed.

(** The composed image has the symbol's size. *)
Lemma compose_size (a : Args) (fs : FS) (sym out : Image) :
  fst (compose a sym fs) = Ok out -> size out = size sym.
Proof.
  intros Hc. unfold compose in Hc. destruct (logo_path a) as [p|].
  - unfold mbind, IO_bind, bind, Image_open, lift in Hc.
    destruct (files fs !! resolve fs p) as [[logo| |]|]; try discriminate.
    cbn in Hc. now apply add_logo_size in Hc.
  - now injection Hc as <-.
Qed.

(** *** What [img.save] does to the file system *)

(** The cases of [Image_save]. *)
Lemma Image_save_cases (img : Image) (name : string) (fs fs' : FS)
    (r : result unit) :
  Image_save img name fs = (r, fs') ->
  (exists e, r = Err e /\ fs' = fs /\
             (save_handler name = Err e \/
              exists handler, save_handler name = Ok handler /\
                (open_w fs (resolve fs name) = Some e \/
                 open_w fs (resolve fs name) = None /\ handler img = Err e /\
                 files fs !! resolve fs name = None))) \/
  (exists handler e f,
     r = Err e /\ save_handler name = Ok handler /\
     open_w fs (resolve fs name) = None /\ handler img = Err e /\
     files fs !! resolve fs name = Some f /\
     fs' = write fs (resolve fs name) OtherFile) \/
  (exists handler stored,
     r = Ok tt /\ save_handler name = Ok handler /\
     open_w fs (resolve fs name) = None /\ handler img = Ok stored /\
     fs' = saved fs name stored).
Proof.
  unfold Image_save. intros H.
  destruct (save_handler name) as [handler|e] eqn:Hh.
  2:{ injection H as <- <-. left. exists e. auto. }
  destruct (open_w fs (resolve fs name)) as [e|] eqn:Ho.
  { injection H as <- <-. left. exists e. split; [reflexivity|].
    split; [reflexivity|]. right. exists handler. auto. }
  destruct (handler img) as [stored|e] eqn:Hw.
  { injection H as <- <-. right. right. exists handler, stored. auto. }
  destruct (files fs !! resolve fs name) as [f|] eqn:Hf; injection H as <- <-.
  - right. left. exists handler, e, f. auto 10.
  - left. exists e. split; [reflexivity|]. split; [reflexivity|].
    right. exists handler. auto 10.
Qed.

(** [img.save] changes the file it names and no other; paths and
    permissions stay. *)
Lemma Image_save_other (img : Image) (name : string) (fs fs' : FS)
    (r : result unit) :
  Image_save img name fs = (r, fs') ->
  resolve fs' = resolve fs /\ unwritable fs' = unwritable fs /\
  forall k, k <> resolve fs name -> files fs' !! k = files fs !! k.
Proof.
  intros H. apply Image_save_cases in H.
  destruct H as [(e & _ & -> & _) | [(h & e & f & _ & _ & _ & _ & _ & ->)
                                    | (h & st & _ & _ & _ & _ & ->)]];
    (split; [reflexivity|]); (split; [reflexivity|]); intros k Hk;
    try reflexivity; cbn; now apply lookup_insert_ne.
Qed.

(** Saving the same image under the same name again ends the same way and
    changes nothing more. *)
Lemma Image_save_again (img : Image) (name : string) (fs fs' : FS)
    (r : result unit) :
  Image_save img name fs = (r, fs') -> Image_save img name fs' = (r, fs').
Proof.
  intros H. pose proof H as Hc. apply Image_save_cases in Hc.
  destruct Hc as [(e & _ & -> & _) | [(h & e & f & -> & Hh & Ho & Hw & Hf & ->)
                                     | (h & st & -> & Hh & Ho & Hw & ->)]].
  - exact H.
  - unfold Image_save, open_w in *. rewrite Hh. cbn.
    destruct (unwritable fs !! resolve fs name); [discriminate Ho|].
    rewrite lookup_insert_eq, Hw. unfold write. cbn.
    now rewrite insert_insert_eq.
  - unfold Image_save, saved, open_w in *. rewrite Hh. cbn.
    destruct (unwritable fs !! resolve fs name); [discriminate Ho|].
    rewrite lookup_insert_eq, Hw. unfold write. cbn.
    now rewrite insert_insert_eq.
Qed.

(** A run is the symbol, the composition, the save. *)
Lemma generate_unfold (a : Args) (fs : FS) :
  generate a fs =
    match symbol_of a with
    | Err e => (Err e, fs)
    | Ok sym =>
        match fst (compose a sym fs) with
        | Err e => (Err e, fs)
        | Ok out => Image_save out (filename a) fs
        end
    end.
Proof.
  unfold generate_qr_code_for_link, mbind, IO_bind, bind, lift.
  destruct (symbol_of a) as [sym|e]; [|reflexivity].
  pose proof (compose_fs a sym fs) as Hfs.
  destruct (compose a sym fs) as [[out|e] fs']; cbn in Hfs |- *; now subst.
Qed.

(** A run changes the file its output path names and no other. *)
Lemma generate_other_files (a : Args) (fs fs' : FS) (r : result unit) :
  generate a fs = (r, fs') ->
  resolve fs' = resolve fs /\ unwritable fs' = unwritable fs /\
  forall k, k <> resolve fs (filename a) -> files fs' !! k = files fs !! k.
Proof.
  rewrite generate_unfold. intros H.
  destruct (symbol_of a) as [sym|e]; [|now injection H as <- <-].
  destruct (fst (compose a sym fs)) as [out|e]; [|now injection H as <- <-].
  exact (Image_save_other _ _ _ _ _ H).
Qed.

(** The symbol is made only with a positive module size. *)
Lemma symbol_box_size (a : Args) (sym : Image) :
  symbol_of a = Ok sym -> 0 < box_size a.
Proof.
  unfold make_symbol, _check_box_size. intros Hsym.
  destruct (Z.leb_spec (box_size a) 0); [discriminate Hsym | assumption].
Qed.

(** The floor of a half difference against the rational half. *)
Lemma center_close (S D : Z) :
  (Qabs (inject_Z (center S D) - Qmake (S - D) 2) < 1)%Q.
Proof.
  unfold center. pose proof (Z.div_mod (S - D) 2 ltac:(lia)) as Hdm.
  pose proof (Z.mod_pos_bound (S - D) 2 ltac:(lia)) as Hm.
  set (q := (S - D) / 2) in *. set (d := S - D) in *.
  apply Qabs_case; intros _; unfold Qlt, Qminus, Qplus, Qopp, inject_Z; cbn; lia.
Qed.

(** The ceiling of a quotient is at most one above its floor. *)
Lemma ceil_le_floor_succ (N B : Z) : 0 < B -> - (- N / B) <= N / B + 1.
Proof.
  intros HB. assert (- (N / B + 1) <= - N / B); [|lia].
  apply Z.div_le_lower_bound; [exact HB|].
  pose proof (Z.div_mod N B ltac:(lia)) as Hdm.
  pose proof (Z.mod_pos_bound N B HB) as Hmod.
  replace (B * - (N / B + 1)) with (- (B * (N / B)) - B) by ring. lia.
Qed.

(** *** The downscaling step *)

(** With a cap of at least one pixel, [thumbnail] succeeds: the logo keeps
    its size when it fits, and is otherwise resized to the computed size. *)
Lemma thumbnail_spec (logo : Image) (cap : Z) :
  1 <= width logo < 2 ^ 26 -> 1 <= height logo < 2 ^ 26 -> 1 <= cap ->
  exists logo',
    thumbnail logo cap cap = Ok logo' /\
    1 <= width logo' <= Z.min cap (width logo) /\
    1 <= height logo' <= Z.min cap (height logo) /\
    Z.abs (width logo' * height logo - height logo' * width logo)
      <= Z.max (width logo) (height logo) /\
    (width logo <= cap -> height logo <= cap -> logo' = logo) /\
    (cap < width logo \/ cap < height logo ->
     Z.max (width logo') (height logo') = cap).
Proof.
  intros Hw Hh Hcap. unfold thumbnail.
  destruct (preserve_aspect_ratio_spec _ _ _ Hw Hh Hcap) as (r & -> & Hr).
  cbn [mbind result_bind rbind]. destruct r as [[w' h']|]; cbn [thumb_size_ok] in Hr.
  - destruct Hr as (Hbig & Hw' & Hh' & Hmax & Hasp).
    destruct ((width logo =? w') && (height logo =? h')) eqn:Hsame.
    + apply andb_true_iff in Hsame. destruct Hsame as [Ew Eh].
      apply Z.eqb_eq in Ew, Eh. subst w' h'.
      exists logo. repeat split; try lia; auto.
    + unfold resize.
      destruct ((w' <? 1) || (h' <? 1)) eqn:Hsmall.
      { apply orb_true_iff in Hsmall. destruct Hsmall as [H | H];
          apply Z.ltb_lt in H; lia. }
      eexists. split; [reflexivity|]. cbn [width height].
      repeat split; try lia.
  - exists logo. split; [reflexivity|].
    replace (width logo * height logo - height logo * width logo) with 0 by ring.
    repeat split; try lia; auto.
Qed.

(** With a cap of zero, [thumbnail] divides zero by zero. *)
Lemma thumbnail_zero (logo : Image) :
  1 <= width logo < 2 ^ 26 -> 1 <= height logo < 2 ^ 26 ->
  thumbnail logo 0 0 = Err ZeroDivisionError.
Proof.
  intros Hw Hh. unfold thumbnail, preserve_aspect_ratio.
  destruct ((0 >=? width logo) && (0 >=? height logo)) eqn:Hfit.
  { apply andb_true_iff in Hfit. destruct Hfit as [H _].
    apply Z.geb_le in H. lia. }
  destruct (int_truediv_ok (width logo) (height logo)) as (a & ->);
    [pow2_consts; lia .. |].
  reflexivity.
Qed.

(** *** The plate *)

(** The plate's edge in exact arithmetic. *)
Lemma bbox_dim_spec (d b : Z) :
  0 <= d < 2 ^ 45 -> b <> 0 ->
  bbox_dim d b = Ok ((21 * d / 20 / b + 1) * b).
Proof.
  intros Hd Hb. unfold bbox_dim.
  pose proof (int_1_05 d Hd) as Hint.
  destruct (Float.mul_int Float.lit_1_05 d) as [f|e]; [|discriminate Hint].
  cbn [mbind result_bind rbind] in Hint |- *. rewrite Hint.
  cbn [mbind result_bind rbind]. unfold floordiv.
  destruct (Z.eqb_spec b 0); [contradiction|]. reflexivity.
Qed.

(** With a cap of at least one pixel and a positive module size, the whole
    composition succeeds. *)
Lemma add_logo_total (img logo : Image) (b : Z) (ls : Float.float) (cap : Z) :
  logo_max_size (width img) (height img) ls = Ok cap ->
  1 <= width logo < 2 ^ 26 -> 1 <= height logo < 2 ^ 26 ->
  1 <= cap -> 0 < b ->
  exists out, add_logo img logo b ls = Ok out.
Proof.
  intros Hcap Hw Hh Hc Hb. unfold add_logo. cbn [size].
  rewrite Hcap. cbn [mbind result_bind rbind].
  destruct (thumbnail_spec logo cap Hw Hh Hc)
    as (logo' & -> & Hw' & Hh' & _).
  cbn [mbind result_bind rbind].
  rewrite !bbox_dim_spec by (pow2_consts; lia).
  cbn [mbind result_bind rbind]. unfold Image_new.
  assert (Hq : forall d, 0 <= d -> 0 < (21 * d / 20 / b + 1) * b).
  { intros d Hd. apply Z.mul_pos_pos; [|lia].
    assert (0 <= 21 * d / 20 / b); [|lia].
    apply Z.div_pos; [apply Z.div_pos|]; lia. }
  pose proof (Hq (width logo') ltac:(lia)).
  pose proof (Hq (height logo') ltac:(lia)).
  destruct (_ || _) eqn:Hneg.
  { apply orb_true_iff in Hneg. destruct Hneg as [H' | H'];
      apply Z.ltb_lt in H'; lia. }
  eexists. reflexivity.
Qed.

(** *** The logo and its plate *)

(** C2, as amended.  Let [logo_size] be a double [m / B], at most 1, whose
    exact product with the symbol's shorter side is at least 1; let the
    symbol's sides be below [2^52] and the logo's between 1 and [2^26].
    The cap [int(min(qr_width, qr_height) * logo_size)] is computed in
    binary64, where the product is rounded before it is truncated: the cap
    is the floor of the exact product or one more, and never above its
    ceiling.  The downscaling step succeeds, and afterwards the logo's
    longer edge is at most that cap; neither side has grown; the aspect
    ratio is kept up to the rounding of the shorter side to a whole pixel
    ([w' * h] and [h' * w] differ by at most the longer original side); and
    a logo that fits the cap in both dimensions is returned as it is. *)
Theorem C2_downscale (img logo : Image) (ls : Float.float) (m : positive)
    (B : Z) :
  is_float ls m B -> Z.pos m <= B ->
  B <= Z.min (width img) (height img) * Z.pos m ->
  1 <= width img < 2 ^ 52 -> 1 <= height img < 2 ^ 52 ->
  1 <= width logo < 2 ^ 26 -> 1 <= height logo < 2 ^ 26 ->
  exists cap logo',
    logo_max_size (width img) (height img) ls = Ok cap /\
    Z.min (width img) (height img) * Z.pos m / B <= cap /\
    cap <= Z.min (width img) (height img) * Z.pos m / B + 1 /\
    cap <= - (- (Z.min (width img) (height img) * Z.pos m) / B) /\
    thumbnail logo cap cap = Ok logo' /\
    Z.max (width logo') (height logo') <= cap /\
    width logo' <= width logo /\ height logo' <= height logo /\
    Z.abs (width logo' * height logo - height logo' * width logo)
      <= Z.max (width logo) (height logo) /\
    (width logo <= cap -> height logo <= cap -> logo' = logo).
Proof.
  intros Hls Hle Hone HW HH Hw Hh.
  assert (HB : B <= 2 ^ 110).
  { apply (is_float_B_le ls m B (Z.min (width img) (height img)) Hls);
      [lia | exact Hone]. }
  destruct (logo_max_size_bounds _ _ ls m B Hls Hle HB HW HH)
    as (cap & Hcap & [Hlo Hhi] & _ & Hc).
  pose proof (is_float_range _ _ _ Hls) as [_ HB0].
  pose proof (ceil_le_floor_succ
                (Z.min (width img) (height img) * Z.pos m) B HB0) as Hcf.
  destruct (thumbnail_spec logo cap Hw Hh (Hc Hone))
    as (logo' & Ht & Hw' & Hh' & Hasp & Hid & _).
  exists cap, logo'.
  split; [exact Hcap|]. split; [exact Hlo|]. split; [lia|].
  split; [exact Hhi|]. split; [exact Ht|]. split; [lia|].
  split; [lia|]. split; [lia|]. split; [exact Hasp | exact Hid].
Qed.

(** C3.  For a logo of [w] x [h] pixels (sides below [2^45]) and a positive
    module size, both edges of the plate are computed, each is a whole
    multiple of [box_size], and each is more than 1.05 times the logo's
    edge and less than one module above it:
    [21/20 * w < bbox_width <= 21/20 * w + box_size], and likewise for the
    height. *)
Theorem C3_plate_dimensions (w h box_size : Z) :
  0 <= w < 2 ^ 45 -> 0 <= h < 2 ^ 45 -> 0 < box_size ->
  exists bbox_width bbox_height,
    bbox_dim w box_size = Ok bbox_width /\
    bbox_dim h box_size = Ok bbox_height /\
    (box_size | bbox_width) /\ (box_size | bbox_height) /\
    21 * w < 20 * bbox_width <= 21 * w + 20 * box_size /\
    21 * h < 20 * bbox_height <= 21 * h + 20 * box_size.
Proof.
  intros Hw Hh Hb.
  assert (Hedge : forall d, 0 <= d ->
            21 * d < 20 * ((21 * d / 20 / box_size + 1) * box_size)
              <= 21 * d + 20 * box_size).
  { intros d Hd.
    pose proof (Z.div_mod (21 * d) 20 ltac:(lia)) as H1.
    pose proof (Z.mod_pos_bound (21 * d) 20 ltac:(lia)) as H2.
    set (i := 21 * d / 20) in *.
    pose proof (Z.div_mod i box_size ltac:(lia)) as H3.
    pose proof (Z.mod_pos_bound i box_size ltac:(lia)) as H4.
    set (q := i / box_size) in *.
    replace ((q + 1) * box_size) with (box_size * q + box_size) by ring.
    lia. }
  exists ((21 * w / 20 / box_size + 1) * box_size),
         ((21 * h / 20 / box_size + 1) * box_size).
  rewrite !bbox_dim_spec by lia.
  repeat split; try (apply Hedge; lia); try (eexists; reflexivity).
Qed.

(** C9, as amended.  Let the symbol be made; let the logo path name an image
    with sides between 1 and [2^26]; let the cap
    [int(min(qr_width, qr_height) * logo_size)] be computed and be at least
    1, however small; let the output name have a writer that accepts every
    image of the symbol's size, and let the output file open for writing.
    Then the run completes: the logo is reduced to no less than 1 x 1 and
    no more than [cap] x [cap], the composition succeeds, and the composed
    image is written.  (With a cap of 0 the run fails instead.) *)
Theorem C9_small_cap (a : Args) (fs : FS) (sym logo : Image) (p : string)
    (cap : Z) (handler : Image -> result Image) :
  symbol_of a = Ok sym ->
  logo_path a = Some p ->
  files fs !! resolve fs p = Some (ImageFile logo) ->
  1 <= width logo < 2 ^ 26 -> 1 <= height logo < 2 ^ 26 ->
  logo_max_size (width sym) (height sym) (logo_size a) = Ok cap ->
  1 <= cap ->
  save_handler (filename a) = Ok handler ->
  (forall im, size im = size sym -> is_ok (handler im) = true) ->
  open_w fs (resolve fs (filename a)) = None ->
  exists logo' out stored,
    thumbnail logo cap cap = Ok logo' /\
    1 <= width logo' <= cap /\ 1 <= height logo' <= cap /\
    add_logo sym logo (box_size a) (logo_size a) = Ok out /\
    handler out = Ok stored /\
    generate a fs = (Ok tt, saved fs (filename a) stored).
Proof.
  intros Hsym Hlogo Hfile Hw Hh Hcap Hc Hhandler Haccepts Hopen.
  pose proof (symbol_box_size a sym Hsym) as Hbox.
  destruct (thumbnail_spec logo cap Hw Hh Hc)
    as (logo' & Ht & Hw' & Hh' & _).
  destruct (add_logo_total sym logo (box_size a) (logo_size a) cap
              Hcap Hw Hh Hc Hbox) as (out & Hadd).
  pose proof (Haccepts out (add_logo_size _ _ _ _ _ Hadd)) as Hok.
  destruct (handler out) as [stored|e] eqn:Hstored; [|discriminate Hok].
  exists logo', out, stored.
  split; [exact Ht|]. split; [lia|]. split; [lia|].
  split; [exact Hadd|]. split; [exact Hstored|].
  rewrite generate_unfold, Hsym,
    (compose_with_logo a fs sym logo p Hlogo Hfile), Hadd.
  unfold Image_save. rewrite Hhandler. cbn zeta. now rewrite Hopen, Hstored.
Qed.

(** *** No logo *)

(** C1.  With [logo_path] absent the composition returns the symbol as it
    is, and the image saved under [filename] is the symbol the encoder
    produced: nothing is pasted on the way to [img.save].  The input is
    valid: the symbol is made, the output name has a writer that stores the
    symbol as it is (a lossless format, as PNG), and the output file opens
    for writing. *)
Theorem C1_no_logo_identity (a : Args) (fs : FS) (sym : Image)
    (handler : Image -> result Image) :
  logo_path a = None ->
  symbol_of a = Ok sym ->
  save_handler (filename a) = Ok handler -> handler sym = Ok sym ->
  open_w fs (resolve fs (filename a)) = None ->
  compose a sym fs = (Ok sym, fs) /\
  generate a fs = (Ok tt, saved fs (filename a) sym) /\
  files (snd (generate a fs)) !! resolve fs (filename a)
  = Some (ImageFile sym).
Proof.
  intros Hlogo Hsym Hhandler Hstored Hopen.
  assert (Hc : compose a sym fs = (Ok sym, fs)).
  { unfold compose. now rewrite Hlogo. }
  assert (Hg : generate a fs = (Ok tt, saved fs (filename a) sym)).
  { rewrite generate_unfold, Hsym, Hc. cbn [fst]. unfold Image_save.
    rewrite Hhandler. cbn zeta. now rewrite Hopen, Hstored. }
  repeat split; [exact Hc | exact Hg |].
  rewrite Hg. cbn. apply lookup_insert_eq.
Qed.

(** *** Errors *)

(** C5.  A module size of zero or less is refused by the encoder's
    constructor with a [ValueError], a configuration error: the run stops
    there, before the logo is opened or anything is pasted, and the file
    system is left as it was. *)
Theorem C5_box_size_rejected (a : Args) (fs : FS) :
  box_size a <= 0 ->
  symbol_of a = Err ValueError /\
  generate a fs = (Err ValueError, fs) /\
  ConfigurationError ValueError = true.
Proof.
  intros Hb.
  assert (Hsym : symbol_of a = Err ValueError).
  { unfold make_symbol, _check_box_size.
    destruct (Z.leb_spec (box_size a) 0); [reflexivity | lia]. }
  split; [exact Hsym | split; [| reflexivity]].
  now rewrite generate_unfold, Hsym.
Qed.

(** C6.  When the logo path names no file, a file that cannot be read, or a
    file that is not an image, the run fails and the file system is left as
    it was; whenever the encoder has produced its symbol, the error is the
    one [Image.open] raised, a resource load error. *)
Theorem C6_logo_load_error (a : Args) (fs : FS) (p : string) :
  logo_path a = Some p ->
  files fs !! resolve fs p = None \/ files fs !! resolve fs p = Some Unreadable
    \/ files fs !! resolve fs p = Some OtherFile ->
  exists e,
    generate a fs = (Err e, fs) /\
    (is_ok (symbol_of a) = true ->
     fst (Image_open p fs) = Err e /\ ResourceLoadError e = true).
Proof.
  intros Hlogo Hfile. rewrite generate_unfold.
  destruct (symbol_of a) as [sym|e].
  - unfold compose. rewrite Hlogo.
    unfold mbind, IO_bind, bind, Image_open.
    destruct Hfile as [-> | [-> | ->]]; cbn;
      eexists; (split; [reflexivity | intros _; split; reflexivity]).
  - exists e. split; [reflexivity | discriminate].
Qed.

(** *** Two runs *)

(** C7, as amended.  Let the logo path, if there is one, name another file
    than the output path does.  Run the operation, then run it again on the
    file system the first run left: the second run ends as the first did,
    and it leaves the file system, the output file with it, exactly as the
    first run left it.  (When the logo path names the output file, the
    first run replaces the logo and the second composes another image.) *)
Theorem C7_second_run_identical (a : Args) (fs0 fs1 fs2 : FS)
    (r1 r2 : result unit) :
  (forall p, logo_path a = Some p ->
             resolve fs0 p <> resolve fs0 (filename a)) ->
  generate a fs0 = (r1, fs1) ->
  generate a fs1 = (r2, fs2) ->
  r2 = r1 /\ fs2 = fs1 /\
  files fs2 !! resolve fs0 (filename a) = files fs1 !! resolve fs0 (filename a).
Proof.
  intros Hne H1 H2.
  destruct (generate_other_files a fs0 fs1 r1 H1) as (Hres & Hunw & Hfiles).
  rewrite generate_unfold in H1, H2.
  destruct (symbol_of a) as [sym|e].
  2:{ injection H1 as <- <-. injection H2 as <- <-. auto. }
  assert (Hc : fst (compose a sym fs1) = fst (compose a sym fs0)).
  { apply compose_ext. intros p Hp. rewrite Hres. apply Hfiles.
    exact (Hne p Hp). }
  rewrite Hc in H2.
  destruct (fst (compose a sym fs0)) as [out|e].
  2:{ injection H1 as <- <-. injection H2 as <- <-. auto. }
  apply Image_save_again in H1. rewrite H1 in H2.
  injection H2 as <- <-. auto.
Qed.

(** *** Centring *)

(** C4.  In a composition that succeeds, the plate is pasted at
    [((qr_width - bbox_width) // 2, (qr_height - bbox_height) // 2)] and
    the logo at
    [((qr_width - logo_width) // 2, (qr_height - logo_height) // 2)], with
    floor division; and each of the four offsets lies less than one pixel
    from the rational centre [(S - D) / 2] of its axis. *)
Theorem C4_center_offset (img logo out : Image) (b : Z) (ls : Float.float) :
  add_logo img logo b ls = Ok out ->
  exists cap logo' bw bh plate,
    logo_max_size (width img) (height img) ls = Ok cap /\
    thumbnail logo cap cap = Ok logo' /\
    bbox_dim (width logo') b = Ok bw /\
    bbox_dim (height logo') b = Ok bh /\
    Image_new bw bh (255, 255, 255) = Ok plate /\
    out = paste
            (paste img plate ((width img - bw) / 2, (height img - bh) / 2))
            logo'
            ((width img - width logo') / 2, (height img - height logo') / 2) /\
    (Qabs (inject_Z ((width img - bw) / 2)
           - Qmake (width img - bw) 2) < 1)%Q /\
    (Qabs (inject_Z ((height img - bh) / 2)
           - Qmake (height img - bh) 2) < 1)%Q /\
    (Qabs (inject_Z ((width img - width logo') / 2)
           - Qmake (width img - width logo') 2) < 1)%Q /\
    (Qabs (inject_Z ((height img - height logo') / 2)
           - Qmake (height img - height logo') 2) < 1)%Q.
Proof.
  intros Hadd. apply add_logo_Ok in Hadd.
  destruct Hadd as (cap & logo' & bw & bh & plate
                    & Hcap & Ht & Hbw & Hbh & Hplate & Hout).
  exists cap, logo', bw, bh, plate.
  split; [exact Hcap|]. split; [exact Ht|]. split; [exact Hbw|].
  split; [exact Hbh|]. split; [exact Hplate|]. split; [exact Hout|].
  split; [exact (center_close (width img) bw)|].
  split; [exact (center_close (height img) bh)|].
  split; [exact (center_close (width img) (width logo'))|].
  exact (center_close (height img) (height logo')).
Qed.

(** *** The documented scenario *)

(** C8.  A 750 x 750 symbol, [logo_size = 0.25], [box_size = 25], a
    500 x 200 logo: the cap is 187, the thumbnail is 187 x 75, the plate is
    200 x 100, and the composition pastes the plate at (275, 325) and the
    logo at (281, 337). *)
Theorem C8_scenario (pxs : Z -> Z -> pixel) :
  logo_max_size 750 750 Float.lit_0_25 = Ok 187 /\
  preserve_aspect_ratio 500 200 187 187 = Ok (Some (187, 75)) /\
  thumbnail red_logo 187 187 = Ok (mkImage 187 75 (resample red_logo 187 75)) /\
  bbox_dim 187 25 = Ok 200 /\
  bbox_dim 75 25 = Ok 100 /\
  add_logo (mkImage 750 750 pxs) red_logo 25 Float.lit_0_25
  = Ok (paste
          (paste (mkImage 750 750 pxs)
             (mkImage 200 100 (fun _ _ => RGBA 255 255 255 255)) (275, 325))
          (mkImage 187 75 (resample red_logo 187 75)) (281, 337)).
Proof. repeat split; vm_compute; reflexivity. Qed.

(** *** The canvas *)

(** C10.  On a run that succeeds, the image handed to [img.save], which the
    file under [filename] then holds as its writer stores it, has the width
    and the height of the symbol the encoder produced, with a logo or
    without: the two pastes write into the canvas and never resize it. *)
Theorem C10_output_size (a : Args) (fs fs' : FS) :
  generate a fs = (Ok tt, fs') ->
  exists sym out handler stored,
    symbol_of a = Ok sym /\
    fst (compose a sym fs) = Ok out /\
    width out = width sym /\ height out = height sym /\
    save_handler (filename a) = Ok handler /\ handler out = Ok stored /\
    files fs' !! resolve fs (filename a) = Some (ImageFile stored).
Proof.
  rewrite generate_unfold. intros H.
  destruct (symbol_of a) as [sym|e]; [|discriminate].
  destruct (fst (compose a sym fs)) as [out|e] eqn:Hc; [|discriminate].
  apply Image_save_cases in H.
  destruct H as [(e & He & _) | [(h & e & f & He & _)
                                | (h & st & _ & Hh & _ & Hw & ->)]];
    try discriminate He.
  pose proof (compose_size a fs sym out Hc) as Hsz.
  unfold size in Hsz. injection Hsz as Hwd Hht.
  exists sym, out, h, st.
  split; [reflexivity|]. split; [exact Hc|]. split; [exact Hwd|].
  split; [exact Hht|]. split; [exact Hh|]. split; [exact Hw|].
  cbn. apply lookup_insert_eq.
Qed.

End Properties.

(** ** The statements at concrete inputs *)

Lemma C1_no_logo_identity_witness :
  compose nearest over (default_args None)
    (mkImage 925 925 (fun _ _ => RGBA 255 255 255 255)) fs_with_logo
  = (Ok (mkImage 925 925 (fun _ _ => RGBA 255 255 255 255)), fs_with_logo) /\
  generate_qr_code_for_link nearest over blank writers (default_args None)
    fs_with_logo
  = (Ok tt, saved fs_with_logo "qrcode.png"
              (mkImage 925 925 (fun _ _ => RGBA 255 255 255 255))) /\
  files (snd (generate_qr_code_for_link nearest over blank writers
                (default_args None) fs_with_logo))
    !! resolve fs_with_logo "qrcode.png"
  = Some (ImageFile (mkImage 925 925 (fun _ _ => RGBA 255 255 255 255))).
Proof.
  apply (C1_no_logo_identity nearest over blank writers (default_args None)
           fs_with_logo
           (mkImage 925 925 (fun _ _ => RGBA 255 255 255 255))
           (fun im => Ok im)).
  - reflexivity.
  - reflexivity.
  - reflexivity.
  - reflexivity.
  - vm_compute. reflexivity.
Defined.

Lemma C5_box_size_rejected_witness :
  make_symbol blank "https://example.com" 4 0 2 "black" "white" = Err ValueError /\
  generate_qr_code_for_link nearest over blank writers
    (mkArgs "https://example.com" "qrcode.png" 4 "black" "white" 0 2 None
       Float.lit_0_25) fs_with_logo
  = (Err ValueError, fs_with_logo) /\
  ConfigurationError ValueError = true.
Proof.
  apply (C5_box_size_rejected nearest over blank writers
           (mkArgs "https://example.com" "qrcode.png" 4 "black" "white" 0 2 None
              Float.lit_0_25) fs_with_logo).
  cbn. lia.
Defined.

Lemma C6_logo_load_error_witness :
  exists e,
    generate_qr_code_for_link nearest over blank writers
      (default_args (Some "missing.png")) fs_with_logo = (Err e, fs_with_logo) /\
    (is_ok (make_symbol blank "https://example.com" 4 25 2 "black" "white") = true ->
     fst (Image_open "missing.png" fs_with_logo) = Err e /\
     ResourceLoadError e = true).
Proof.
  apply (C6_logo_load_error nearest over blank writers
           (default_args (Some "missing.png")) fs_with_logo "missing.png").
  - reflexivity.
  - left. reflexivity.
Defined.

(** Two runs of the default command line with the logo [./logo.png]. *)
Lemma C7_second_run_identical_witness :
  fst (generate_qr_code_for_link nearest over blank writers
         (default_args (Some "./logo.png"))
         (snd (generate_qr_code_for_link nearest over blank writers
                 (default_args (Some "./logo.png")) fs_with_logo)))
  = fst (generate_qr_code_for_link nearest over blank writers
           (default_args (Some "./logo.png")) fs_with_logo) /\
  snd (generate_qr_code_for_link nearest over blank writers
         (default_args (Some "./logo.png"))
         (snd (generate_qr_code_for_link nearest over blank writers
                 (default_args (Some "./logo.png")) fs_with_logo)))
  = snd (generate_qr_code_for_link nearest over blank writers
           (default_args (Some "./logo.png")) fs_with_logo) /\
  files (snd (generate_qr_code_for_link nearest over blank writers
                (default_args (Some "./logo.png"))
                (snd (generate_qr_code_for_link nearest over blank writers
                        (default_args (Some "./logo.png")) fs_with_logo))))
    !! resolve fs_with_logo "qrcode.png"
  = files (snd (generate_qr_code_for_link nearest over blank writers
                  (default_args (Some "./logo.png")) fs_with_logo))
      !! resolve fs_with_logo "qrcode.png".
Proof.
  apply (C7_second_run_identical nearest over blank writers
           (default_args (Some "./logo.png")) fs_with_logo).
  - intros p [= <-]. discriminate.
  - apply surjective_pairing.
  - apply surjective_pairing.
Defined.

(** The default command line with the logo under the output's own name:
    the first run composes the red logo and writes it over the logo file;
    the second run finds that picture as its logo and composes another.
    The pixel (462, 420) is red after the first run and white after the
    second. *)
Lemma C7_logo_is_output_counterexample :
  generate_qr_code_for_link nearest over blank writers
    (default_args (Some "qrcode.png")) fs_logo_is_output
  = (Ok tt, saved fs_logo_is_output "qrcode.png" demo_out) /\
  generate_qr_code_for_link nearest over blank writers
    (default_args (Some "qrcode.png"))
    (saved fs_logo_is_output "qrcode.png" demo_out)
  = (Ok tt, saved fs_logo_is_output "qrcode.png" demo_out_again) /\
  px demo_out 462 420 = RGBA 255 0 0 255 /\
  px demo_out_again 462 420 = RGBA 255 255 255 255.
Proof. repeat split; vm_compute; reflexivity. Qed.

Lemma C10_output_size_witness :
  exists sym out handler stored,
    make_symbol blank "https://example.com" 4 25 2 "black" "white" = Ok sym /\
    fst (compose nearest over (default_args (Some "logo.png")) sym fs_with_logo)
    = Ok out /\
    width out = width sym /\ height out = height sym /\
    writers "qrcode.png" = Ok handler /\ handler out = Ok stored /\
    files (snd (generate_qr_code_for_link nearest over blank writers
                  (default_args (Some "logo.png")) fs_with_logo))
      !! resolve fs_with_logo "qrcode.png" = Some (ImageFile stored).
Proof.
  apply (C10_output_size nearest over blank writers
           (default_args (Some "logo.png")) fs_with_logo).
  vm_compute. reflexivity.
Defined.

(** The default command line on the 925 pixel symbol, 0.25 = [2^52 / 2^54]. *)
Lemma C2_downscale_witness :
  exists cap logo',
    logo_max_size (width blank_symbol) (height blank_symbol) Float.lit_0_25
    = Ok cap /\
    Z.min (width blank_symbol) (height blank_symbol) * 4503599627370496 / 2 ^ 54
      <= cap /\
    cap <= Z.min (width blank_symbol) (height blank_symbol)
           * 4503599627370496 / 2 ^ 54 + 1 /\
    cap <= - (- (Z.min (width blank_symbol) (height blank_symbol)
                 * 4503599627370496) / 2 ^ 54) /\
    thumbnail nearest red_logo cap cap = Ok logo' /\
    Z.max (width logo') (height logo') <= cap /\
    width logo' <= width red_logo /\ height logo' <= height red_logo /\
    Z.abs (width logo' * height red_logo - height logo' * width red_logo)
      <= Z.max (width red_logo) (height red_logo) /\
    (width red_logo <= cap -> height red_logo <= cap -> logo' = red_logo).
Proof.
  apply (C2_downscale nearest blank_symbol red_logo Float.lit_0_25
           4503599627370496 (2 ^ 54)).
  - exists (-54). repeat split; reflexivity || (vm_compute; discriminate).
  - vm_compute. discriminate.
  - vm_compute. discriminate.
  - split; [cbn; lia | reflexivity].
  - split; [cbn; lia | reflexivity].
  - split; [cbn; lia | reflexivity].
  - split; [cbn; lia | reflexivity].
Defined.

(** [--logo_size 0.003243243243243243], the double nearest to [3 / 925] and
    a little below it, on the 925 pixel symbol: the exact product is below
    3 and its floor is 2, the binary64 product rounds to [3.0], the cap is
    3, and the 500 x 200 logo is reduced to 3 x 1: its longer edge is above
    the floor of the exact product. *)
Lemma C2_exact_floor_counterexample :
  is_float lit_3_925 7478409759611980 (2 ^ 61) /\
  Z.min 925 925 * 7478409759611980 / 2 ^ 61 = 2 /\
  logo_max_size 925 925 lit_3_925 = Ok 3 /\
  thumbnail nearest red_logo 3 3 = Ok (mkImage 3 1 (nearest red_logo 3 1)) /\
  Z.max 3 1 = 3 /\
  (2 <? 3) = true.
Proof.
  split.
  { exists (-61). repeat split; reflexivity || (vm_compute; discriminate). }
  repeat split; vm_compute; reflexivity.
Qed.

Lemma C3_plate_dimensions_witness :
  exists bbox_width bbox_height,
    bbox_dim 187 25 = Ok bbox_width /\
    bbox_dim 75 25 = Ok bbox_height /\
    (25 | bbox_width) /\ (25 | bbox_height) /\
    21 * 187 < 20 * bbox_width <= 21 * 187 + 20 * 25 /\
    21 * 75 < 20 * bbox_height <= 21 * 75 + 20 * 25.
Proof.
  apply (C3_plate_dimensions 187 75 25).
  - change (2 ^ 45) with 35184372088832. lia.
  - change (2 ^ 45) with 35184372088832. lia.
  - lia.
Defined.

(** The default command line with the red logo. *)
Lemma C4_center_offset_witness :
  exists cap logo' bw bh plate,
    logo_max_size (width blank_symbol) (height blank_symbol) Float.lit_0_25
    = Ok cap /\
    thumbnail nearest red_logo cap cap = Ok logo' /\
    bbox_dim (width logo') 25 = Ok bw /\
    bbox_dim (height logo') 25 = Ok bh /\
    Image_new bw bh (255, 255, 255) = Ok plate /\
    demo_out
    = paste over
        (paste over blank_symbol plate
           ((width blank_symbol - bw) / 2, (height blank_symbol - bh) / 2))
        logo'
        ((width blank_symbol - width logo') / 2,
         (height blank_symbol - height logo') / 2) /\
    (Qabs (inject_Z ((width blank_symbol - bw) / 2)
           - Qmake (width blank_symbol - bw) 2) < 1)%Q /\
    (Qabs (inject_Z ((height blank_symbol - bh) / 2)
           - Qmake (height blank_symbol - bh) 2) < 1)%Q /\
    (Qabs (inject_Z ((width blank_symbol - width logo') / 2)
           - Qmake (width blank_symbol - width logo') 2) < 1)%Q /\
    (Qabs (inject_Z ((height blank_symbol - height logo') / 2)
           - Qmake (height blank_symbol - height logo') 2) < 1)%Q.
Proof.
  apply (C4_center_offset nearest over blank_symbol red_logo demo_out 25
           Float.lit_0_25).
  vm_compute. reflexivity.
Defined.

(** [--logo_size 0.0015] on the 925 pixel symbol: the cap is
    [int(1.3875) = 1], the logo becomes a single pixel, and the run
    completes. *)
Lemma C9_small_cap_witness :
  exists logo' out stored,
    thumbnail nearest red_logo 1 1 = Ok logo' /\
    1 <= width logo' <= 1 /\ 1 <= height logo' <= 1 /\
    add_logo nearest over blank_symbol red_logo 25 lit_0_0015 = Ok out /\
    Ok out = Ok stored /\
    generate_qr_code_for_link nearest over blank writers
      (mkArgs "https://example.com" "qrcode.png" 4 "black" "white" 25 2
         (Some "logo.png") lit_0_0015) fs_with_logo
    = (Ok tt, saved fs_with_logo "qrcode.png" stored).
Proof.
  apply (C9_small_cap nearest over blank writers
           (mkArgs "https://example.com" "qrcode.png" 4 "black" "white" 25 2
              (Some "logo.png") lit_0_0015)
           fs_with_logo blank_symbol red_logo "logo.png" 1 (fun im => Ok im)).
  - reflexivity.
  - reflexivity.
  - vm_compute. reflexivity.
  - split; [cbn; lia | reflexivity].
  - split; [cbn; lia | reflexivity].
  - vm_compute. reflexivity.
  - lia.
  - reflexivity.
  - intros im _. reflexivity.
  - vm_compute. reflexivity.
Defined.

(** The run of the default command line with [--logo_size 0.001]: the
    symbol is 925 pixels wide, the cap is [int(0.925) = 0], and
    [logo.thumbnail((0, 0))] raises. *)
Lemma C9_zero_cap_counterexample :
  logo_max_size 925 925 lit_0_001 = Ok 0 /\
  thumbnail nearest red_logo 0 0 = Err ZeroDivisionError /\
  generate_qr_code_for_link nearest over blank writers
    (mkArgs "https://example.com" "qrcode.png" 4 "black" "white" 25 2
       (Some "logo.png") lit_0_001) fs_with_logo
  = (Err ZeroDivisionError, fs_with_logo).
Proof. repeat split; vm_compute; reflexivity. Qed.

(** * Further properties of the compositor *)

(** ** What [thumbnail] returns, whatever the cap *)

Lemma round_aspect_ge_1 number key r :
  round_aspect number key = Ok r -> 1 <= r.
Proof.
  unfold round_aspect. intros H.
  res_inv H. res_inv H. res_inv H. res_inv H. injection H as <-. lia.
Qed.

Lemma preserve_aspect_ratio_None (w h x y : Z) :
  preserve_aspect_ratio w h x y = Ok None -> w <= x /\ h <= y.
Proof.
  unfold preserve_aspect_ratio. intros H.
  destruct ((x >=? w) && (y >=? h)) eqn:Hfit.
  { apply andb_true_iff in Hfit. destruct Hfit as [H1 H2].
    apply Z.geb_le in H1, H2. lia. }
  res_inv H. res_inv H. destruct (Float.leb _ _).
  - res_inv H. res_inv H. discriminate H.
  - res_inv H. res_inv H. discriminate H.
Qed.

(** One side of the computed size is the side of the box; the other is at
    least one pixel. *)
Lemma preserve_aspect_ratio_Some (w h x y w' h' : Z) :
  preserve_aspect_ratio w h x y = Ok (Some (w', h')) ->
  (h' = y /\ 1 <= w') \/ (w' = x /\ 1 <= h').
Proof.
  unfold preserve_aspect_ratio. intros H.
  destruct ((x >=? w) && (y >=? h)); [discriminate H|].
  res_inv H. res_inv H. destruct (Float.leb _ _).
  - res_inv H. res_inv H. injection H as <- <-.
    left. split; [reflexivity|]. eapply round_aspect_ge_1; eassumption.
  - res_inv H. res_inv H. injection H as <- <-.
    right. split; [reflexivity|]. eapply round_aspect_ge_1; eassumption.
Qed.

(** ** Centring, in integers *)

(** A box centred in a wider box centred in the same canvas lies inside it,
    with margins that differ by at most one pixel. *)
Lemma center_nested (S inner outer : Z) :
  0 <= inner <= outer ->
  center S outer <= center S inner /\
  center S inner + inner <= center S outer + outer /\
  Z.abs ((center S inner - center S outer)
         - (center S outer + outer - (center S inner + inner))) <= 1.
Proof.
  intros H. unfold center.
  pose proof (Z.div_mod (S - inner) 2 ltac:(lia)) as H1.
  pose proof (Z.mod_pos_bound (S - inner) 2 ltac:(lia)) as H2.
  pose proof (Z.div_mod (S - outer) 2 ltac:(lia)) as H3.
  pose proof (Z.mod_pos_bound (S - outer) 2 ltac:(lia)) as H4.
  lia.
Qed.

(** A box no larger than the canvas is pasted inside the canvas. *)
Lemma center_inside (S inner : Z) :
  0 <= inner <= S ->
  0 <= center S inner /\ center S inner + inner <= S.
Proof.
  intros H. unfold center.
  pose proof (Z.div_mod (S - inner) 2 ltac:(lia)) as H1.
  pose proof (Z.mod_pos_bound (S - inner) 2 ltac:(lia)) as H2.
  lia.
Qed.

(** The plate's edge exceeds the logo's edge. *)
Lemma bbox_dim_gt (d b bw : Z) :
  0 <= d < 2 ^ 45 -> 0 < b -> bbox_dim d b = Ok bw ->
  d < bw /\ 20 * bw <= 21 * d + 20 * b.
Proof.
  intros Hd Hb H. rewrite bbox_dim_spec in H by lia. injection H as <-.
  pose proof (Z.div_mod (21 * d) 20 ltac:(lia)) as H1.
  pose proof (Z.mod_pos_bound (21 * d) 20 ltac:(lia)) as H2.
  set (i := 21 * d / 20) in *.
  pose proof (Z.div_mod i b ltac:(lia)) as H3.
  pose proof (Z.mod_pos_bound i b ltac:(lia)) as H4.
  set (q := i / b) in *.
  replace ((q + 1) * b) with (b * q + b) by ring. lia.
Qed.

(** ** The run, the logo and the plate *)

Section Compositor.

Variable resample : Image -> Z -> Z -> Z -> Z -> pixel.
Variable blend : pixel -> pixel -> pixel.
Variable render : string -> Z -> Z -> Z -> string -> string -> result Image.
Variable save_handler : string -> result (Image -> result Image).

Local Abbreviation thumbnail := (thumbnail resample).
Local Abbreviation paste := (paste blend).
Local Abbreviation add_logo := (add_logo resample blend).
Local Abbreviation compose := (compose resample blend).
Local Abbreviation Image_save := (Image_save save_handler).
Local Abbreviation generate :=
  (generate_qr_code_for_link resample blend render save_handler).
Local Abbreviation symbol_of a :=
  (make_symbol render (link a) (version a) (box_size a) (border a)
     (fill_color a) (back_color a)).

(** [thumbnail] succeeds on a box below one pixel for no image: the size it
    computes keeps one side of the box, which [resize] refuses. *)
Lemma thumbnail_Ok_cap (logo logo' : Image) (cap : Z) :
  1 <= width logo -> 1 <= height logo ->
  thumbnail logo cap cap = Ok logo' -> 1 <= cap.
Proof.
  intros Hw Hh H. unfold thumbnail in H. res_inv H.
  destruct a as [[w' h']|].
  - apply preserve_aspect_ratio_Some in Ha.
    destruct ((width logo =? w') && (height logo =? h')) eqn:Hsame.
    + apply andb_true_iff in Hsame. destruct Hsame as [Ew Eh].
      apply Z.eqb_eq in Ew, Eh. lia.
    + unfold resize in H.
      destruct ((w' <? 1) || (h' <? 1)) eqn:Hsmall; [discriminate H|].
      apply orb_false_iff in Hsmall. destruct Hsmall as [H1 H2].
      apply Z.ltb_ge in H1, H2. lia.
  - apply preserve_aspect_ratio_None in Ha. lia.
Qed.

(** A successful [add_logo], with the sizes the lemmas above give: the
    logo after the downscaling step, the plate, and the two pastes. *)
Lemma add_logo_geometry (img logo out : Image) (b : Z) (ls : Float.float) :
  1 <= width logo < 2 ^ 26 -> 1 <= height logo < 2 ^ 26 -> 0 < b ->
  add_logo img logo b ls = Ok out ->
  exists cap logo' bw bh,
    logo_max_size (width img) (height img) ls = Ok cap /\
    1 <= cap /\
    thumbnail logo cap cap = Ok logo' /\
    1 <= width logo' <= Z.min cap (width logo) /\
    1 <= height logo' <= Z.min cap (height logo) /\
    bbox_dim (width logo') b = Ok bw /\
    bbox_dim (height logo') b = Ok bh /\
    width logo' < bw /\ 20 * bw <= 21 * width logo' + 20 * b /\
    height logo' < bh /\ 20 * bh <= 21 * height logo' + 20 * b /\
    out = paste
            (paste img (mkImage bw bh (fun _ _ => white))
               (center (width img) bw, center (height img) bh))
            logo'
            (center (width img) (width logo'), center (height img) (height logo')).
Proof.
  intros Hw Hh Hb H. apply add_logo_Ok in H.
  destruct H as (cap & logo' & bw & bh & plate & Hcap & Ht & Hbw & Hbh & Hnew & ->).
  pose proof (thumbnail_Ok_cap logo logo' cap (proj1 Hw) (proj1 Hh) Ht) as Hc.
  destruct (thumbnail_spec resample logo cap Hw Hh Hc)
    as (logo'' & Ht' & Hw' & Hh' & _).
  rewrite Ht in Ht'. injection Ht' as <-.
  assert (Hrw : 0 <= width logo' < 2 ^ 45) by (pow2_consts; lia).
  assert (Hrh : 0 <= height logo' < 2 ^ 45) by (pow2_consts; lia).
  destruct (bbox_dim_gt _ _ _ Hrw Hb Hbw) as [Hgw Huw].
  destruct (bbox_dim_gt _ _ _ Hrh Hb Hbh) as [Hgh Huh].
  unfold Image_new in Hnew.
  destruct ((bw <? 0) || (bh <? 0)); [discriminate Hnew|].
  injection Hnew as <-.
  exists cap, logo', bw, bh. repeat split; try assumption; lia.
Qed.

(** *** What a run writes *)

(** X1.  A run that fails saves no image.  It leaves the file system as it
    found it, with one exception: when the run gets as far as [img.save],
    the output file is already there, and the writer raises after the file
    has been opened, that file is left emptied; nothing else changes.  A
    failure of the encoder, of [Image.open], of the cap, of [thumbnail] or
    of the plate changes nothing at all. *)
Theorem failed_run_saves_no_image (a : Args) (fs fs' : FS) (e : exn) :
  generate a fs = (Err e, fs') ->
  fs' = fs \/
  exists sym out handler f,
    symbol_of a = Ok sym /\ fst (compose a sym fs) = Ok out /\
    save_handler (filename a) = Ok handler /\ handler out = Err e /\
    files fs !! resolve fs (filename a) = Some f /\
    fs' = write fs (resolve fs (filename a)) OtherFile.
Proof.
  rewrite generate_unfold. intros H.
  destruct (symbol_of a) as [sym|e0]; [|left; now injection H].
  destruct (fst (compose a sym fs)) as [out|e0] eqn:Hc;
    [|left; now injection H].
  apply (Image_save_cases save_handler) in H.
  destruct H as [(e1 & _ & -> & _) | [(h & e1 & f & He & Hh & _ & Hw & Hf & ->)
                                     | (h & st & He & _)]].
  - left. reflexivity.
  - injection He as ->. right. exists sym, out, h, f. auto 10.
  - discriminate He.
Qed.

(** X2.  A run, failed or not, changes no file but the one its output path
    names: a path that names another file finds it as it was, and what the
    paths name and what may be written stay as they were. *)
Theorem run_writes_only_output (a : Args) (fs fs' : FS) (r : result unit)
    (p : string) :
  generate a fs = (r, fs') -> resolve fs p <> resolve fs (filename a) ->
  files fs' !! resolve fs' p = files fs !! resolve fs p /\
  resolve fs' = resolve fs /\ unwritable fs' = unwritable fs.
Proof.
  intros H Hp.
  destruct (generate_other_files resample blend render save_handler
              a fs fs' r H) as (Hres & Hunw & Hfiles).
  split; [|split; assumption]. rewrite Hres. exact (Hfiles _ Hp).
Qed.

(** X3.  With a positive module size, a negative border is refused by the
    encoder's constructor with a [ValueError], before the logo is opened,
    and nothing is written. *)
Theorem border_rejected (a : Args) (fs : FS) :
  0 < box_size a -> border a < 0 ->
  symbol_of a = Err ValueError /\ generate a fs = (Err ValueError, fs).
Proof.
  intros Hbox Hborder.
  assert (Hsym : symbol_of a = Err ValueError).
  { unfold make_symbol, _check_box_size, _check_border.
    destruct (Z.leb_spec (box_size a) 0); [lia|].
    cbn [mbind result_bind rbind].
    destruct (Z.ltb_spec (border a) 0); [reflexivity | lia]. }
  split; [exact Hsym|]. now rewrite generate_unfold, Hsym.
Qed.

(** *** The cap and the downscaled logo *)

(** X4.  A logo that exceeds the cap on either side comes out of the
    downscaling step with its longer edge equal to the cap (for a cap of at
    least one pixel and sides below [2^26]). *)
Theorem downscaled_longer_edge_is_cap (logo : Image) (cap : Z) :
  1 <= width logo < 2 ^ 26 -> 1 <= height logo < 2 ^ 26 -> 1 <= cap ->
  cap < width logo \/ cap < height logo ->
  exists logo',
    thumbnail logo cap cap = Ok logo' /\
    Z.max (width logo') (height logo') = cap.
Proof.
  intros Hw Hh Hcap Hbig.
  destruct (thumbnail_spec resample logo cap Hw Hh Hcap)
    as (logo' & Ht & _ & _ & _ & _ & Hmax).
  exists logo'. split; [exact Ht | exact (Hmax Hbig)].
Qed.

(** X5.  For a [logo_size] that is a double [m / B] between [2^-58] and 1
    and a symbol with sides below [2^52], the cap is computed without
    error; it is the exact product [min(W, H) * logo_size] rounded down or
    up to an integer; it never exceeds the symbol's shorter side; and it is
    at least 1 as soon as the exact product is. *)
Theorem cap_within_symbol (W H : Z) (ls : Float.float) (m : positive) (B : Z) :
  is_float ls m B -> Z.pos m <= B -> B <= 2 ^ 110 ->
  1 <= W < 2 ^ 52 -> 1 <= H < 2 ^ 52 ->
  exists cap,
    logo_max_size W H ls = Ok cap /\
    Z.min W H * Z.pos m / B <= cap <= - (- (Z.min W H * Z.pos m) / B) /\
    0 <= cap <= Z.min W H /\
    (B <= Z.min W H * Z.pos m -> 1 <= cap).
Proof. exact (logo_max_size_bounds W H ls m B). Qed.

(** X6.  With such a [logo_size], a successful composition pastes the logo
    entirely inside the symbol: its offsets are not negative, and its box
    ends within the canvas on both axes, so no part of the logo is
    clipped. *)
Theorem logo_inside_symbol (img logo out : Image) (b : Z) (ls : Float.float)
    (m : positive) (B : Z) :
  is_float ls m B -> Z.pos m <= B -> B <= 2 ^ 110 ->
  1 <= width img < 2 ^ 52 -> 1 <= height img < 2 ^ 52 ->
  1 <= width logo < 2 ^ 26 -> 1 <= height logo < 2 ^ 26 -> 0 < b ->
  add_logo img logo b ls = Ok out ->
  exists cap logo',
    logo_max_size (width img) (height img) ls = Ok cap /\
    thumbnail logo cap cap = Ok logo' /\
    0 <= center (width img) (width logo') /\
    center (width img) (width logo') + width logo' <= width img /\
    0 <= center (height img) (height logo') /\
    center (height img) (height logo') + height logo' <= height img.
Proof.
  intros Hls Hle HB HW HH Hw Hh Hb Hadd.
  destruct (add_logo_geometry img logo out b ls Hw Hh Hb Hadd)
    as (cap & logo' & bw & bh & Hcap & Hc & Ht & Hw' & Hh' & _).
  destruct (logo_max_size_bounds _ _ ls m B Hls Hle HB HW HH)
    as (cap' & Hcap' & _ & Hmin & _).
  rewrite Hcap in Hcap'. injection Hcap' as <-.
  destruct (center_inside (width img) (width logo') ltac:(lia)).
  destruct (center_inside (height img) (height logo') ltac:(lia)).
  exists cap, logo'. repeat split; assumption.
Qed.

(** X10.  The downscaling step is idempotent: applied again with the same
    cap to the logo it returned, it returns that logo as it is. *)
Theorem thumbnail_idempotent (logo logo' : Image) (cap : Z) :
  1 <= width logo < 2 ^ 26 -> 1 <= height logo < 2 ^ 26 ->
  thumbnail logo cap cap = Ok logo' ->
  thumbnail logo' cap cap = Ok logo'.
Proof.
  intros Hw Hh Ht.
  pose proof (thumbnail_Ok_cap logo logo' cap (proj1 Hw) (proj1 Hh) Ht) as Hc.
  destruct (thumbnail_spec resample logo cap Hw Hh Hc)
    as (logo'' & Ht' & Hw' & Hh' & _).
  rewrite Ht in Ht'. injection Ht' as <-.
  unfold thumbnail, preserve_aspect_ratio.
  destruct ((cap >=? width logo') && (cap >=? height logo')) eqn:Hfit;
    [reflexivity|].
  apply andb_false_iff in Hfit. destruct Hfit as [H | H];
    rewrite Z.geb_leb in H; apply Z.leb_gt in H; lia.
Qed.

(** *** The plate around the logo *)

(** X7.  In a successful composition the plate's box contains the logo's
    box on both axes, and the logo sits in the middle of the plate: the
    margins left and right of it differ by at most one pixel, and so do the
    margins above and below. *)
Theorem logo_inside_plate (img logo out : Image) (b : Z) (ls : Float.float) :
  1 <= width logo < 2 ^ 26 -> 1 <= height logo < 2 ^ 26 -> 0 < b ->
  add_logo img logo b ls = Ok out ->
  exists cap logo' bw bh,
    logo_max_size (width img) (height img) ls = Ok cap /\
    thumbnail logo cap cap = Ok logo' /\
    bbox_dim (width logo') b = Ok bw /\
    bbox_dim (height logo') b = Ok bh /\
    center (width img) bw <= center (width img) (width logo') /\
    center (width img) (width logo') + width logo'
      <= center (width img) bw + bw /\
    center (height img) bh <= center (height img) (height logo') /\
    center (height img) (height logo') + height logo'
      <= center (height img) bh + bh /\
    Z.abs ((center (width img) (width logo') - center (width img) bw)
           - (center (width img) bw + bw
              - (center (width img) (width logo') + width logo'))) <= 1 /\
    Z.abs ((center (height img) (height logo') - center (height img) bh)
           - (center (height img) bh + bh
              - (center (height img) (height logo') + height logo'))) <= 1.
Proof.
  intros Hw Hh Hb Hadd.
  destruct (add_logo_geometry img logo out b ls Hw Hh Hb Hadd)
    as (cap & logo' & bw & bh & Hcap & Hc & Ht & Hw' & Hh' & Hbw & Hbh
        & Hgw & _ & Hgh & _).
  destruct (center_nested (width img) (width logo') bw ltac:(lia))
    as (H1 & H2 & H3).
  destruct (center_nested (height img) (height logo') bh ltac:(lia))
    as (H4 & H5 & H6).
  exists cap, logo', bw, bh. repeat split; assumption.
Qed.

(** X8.  A successful composition changes nothing outside the plate's box:
    every pixel of the symbol that the plate does not cover is in the
    output as it was, whatever the logo, the filter and the blend. *)
Theorem outside_plate_untouched (img logo out : Image) (b : Z)
    (ls : Float.float) :
  1 <= width logo < 2 ^ 26 -> 1 <= height logo < 2 ^ 26 -> 0 < b ->
  add_logo img logo b ls = Ok out ->
  exists cap logo' bw bh,
    logo_max_size (width img) (height img) ls = Ok cap /\
    thumbnail logo cap cap = Ok logo' /\
    bbox_dim (width logo') b = Ok bw /\
    bbox_dim (height logo') b = Ok bh /\
    forall x y,
      in_box (center (width img) bw) (center (height img) bh) bw bh x y = false ->
      px out x y = px img x y.
Proof.
  intros Hw Hh Hb Hadd.
  destruct (add_logo_geometry img logo out b ls Hw Hh Hb Hadd)
    as (cap & logo' & bw & bh & Hcap & Hc & Ht & Hw' & Hh' & Hbw & Hbh
        & Hgw & _ & Hgh & _ & ->).
  destruct (center_nested (width img) (width logo') bw ltac:(lia))
    as (H1 & H2 & _).
  destruct (center_nested (height img) (height logo') bh ltac:(lia))
    as (H4 & H5 & _).
  exists cap, logo', bw, bh. repeat split; try assumption.
  intros x y Hout. unfold in_box in Hout.
  unfold paste; cbn [px width height].
  rewrite Hout.
  destruct ((center (width img) (width logo') <=? x)
            && (x <? center (width img) (width logo') + width logo')
            && (center (height img) (height logo') <=? y)
            && (y <? center (height img) (height logo') + height logo'))
    eqn:Hin; [|reflexivity].
  exfalso.
  apply andb_true_iff in Hin. destruct Hin as [Hin Hy2].
  apply andb_true_iff in Hin. destruct Hin as [Hin Hy1].
  apply andb_true_iff in Hin. destruct Hin as [Hx1 Hx2].
  apply Z.leb_le in Hx1, Hy1. apply Z.ltb_lt in Hx2, Hy2.
  assert (Hplate : (center (width img) bw <=? x)
                   && (x <? center (width img) bw + bw)
                   && (center (height img) bh <=? y)
                   && (y <? center (height img) bh + bh) = true).
  { repeat (apply andb_true_iff; split);
      try (apply Z.leb_le; lia); apply Z.ltb_lt; lia. }
  congruence.
Qed.

(** X9.  The pixels of a successful composition: the canvas keeps the
    symbol's size; under the logo's box a pixel is the logo's pixel blended
    over the plate's white blended over the symbol, never the logo directly
    over the symbol; in the rest of the plate's box it is white blended
    over the symbol. *)
Theorem composed_pixels (img logo out : Image) (b : Z) (ls : Float.float) :
  1 <= width logo < 2 ^ 26 -> 1 <= height logo < 2 ^ 26 -> 0 < b ->
  add_logo img logo b ls = Ok out ->
  exists cap logo' bw bh,
    logo_max_size (width img) (height img) ls = Ok cap /\
    thumbnail logo cap cap = Ok logo' /\
    bbox_dim (width logo') b = Ok bw /\
    bbox_dim (height logo') b = Ok bh /\
    width out = width img /\ height out = height img /\
    forall x y,
      (in_box (center (width img) (width logo'))
              (center (height img) (height logo'))
              (width logo') (height logo') x y = true ->
       px out x y
       = blend (blend (px img x y) white)
               (px logo' (x - center (width img) (width logo'))
                         (y - center (height img) (height logo')))) /\
      (in_box (center (width img) (width logo'))
              (center (height img) (height logo'))
              (width logo') (height logo') x y = false ->
       in_box (center (width img) bw) (center (height img) bh) bw bh x y = true ->
       px out x y = blend (px img x y) white).
Proof.
  intros Hw Hh Hb Hadd.
  destruct (add_logo_geometry img logo out b ls Hw Hh Hb Hadd)
    as (cap & logo' & bw & bh & Hcap & Hc & Ht & Hw' & Hh' & Hbw & Hbh
        & Hgw & _ & Hgh & _ & ->).
  destruct (center_nested (width img) (width logo') bw ltac:(lia))
    as (H1 & H2 & _).
  destruct (center_nested (height img) (height logo') bh ltac:(lia))
    as (H4 & H5 & _).
  exists cap, logo', bw, bh.
  split; [exact Hcap|]. split; [exact Ht|]. split; [exact Hbw|].
  split; [exact Hbh|]. split; [reflexivity|]. split; [reflexivity|].
  intros x y. unfold in_box, paste; cbn [px width height]. split.
  - intros Hin. rewrite Hin.
    apply andb_true_iff in Hin. destruct Hin as [Hin Hy2].
    apply andb_true_iff in Hin. destruct Hin as [Hin Hy1].
    apply andb_true_iff in Hin. destruct Hin as [Hx1 Hx2].
    apply Z.leb_le in Hx1, Hy1. apply Z.ltb_lt in Hx2, Hy2.
    assert (Hplate : (center (width img) bw <=? x)
                     && (x <? center (width img) bw + bw)
                     && (center (height img) bh <=? y)
                     && (y <? center (height img) bh + bh) = true).
    { repeat (apply andb_true_iff; split);
        try (apply Z.leb_le; lia); apply Z.ltb_lt; lia. }
    now rewrite Hplate.
  - intros Hout Hin. now rewrite Hout, Hin.
Qed.

(** X11.  The plate of a successful composition is bounded by the cap, not
    by the logo file: each of its edges is more than the downscaled logo's
    edge and at most [1.05] times the cap plus one module. *)
Theorem plate_bounded_by_cap (img logo out : Image) (b : Z)
    (ls : Float.float) :
  1 <= width logo < 2 ^ 26 -> 1 <= height logo < 2 ^ 26 -> 0 < b ->
  add_logo img logo b ls = Ok out ->
  exists cap logo' bw bh,
    logo_max_size (width img) (height img) ls = Ok cap /\
    thumbnail logo cap cap = Ok logo' /\
    bbox_dim (width logo') b = Ok bw /\
    bbox_dim (height logo') b = Ok bh /\
    width logo' < bw /\ 20 * bw <= 21 * cap + 20 * b /\
    height logo' < bh /\ 20 * bh <= 21 * cap + 20 * b.
Proof.
  intros Hw Hh Hb Hadd.
  destruct (add_logo_geometry img logo out b ls Hw Hh Hb Hadd)
    as (cap & logo' & bw & bh & Hcap & Hc & Ht & Hw' & Hh' & Hbw & Hbh
        & Hgw & Hgw' & Hgh & Hgh' & _).
  exists cap, logo', bw, bh.
  split; [exact Hcap|]. split; [exact Ht|]. split; [exact Hbw|].
  split; [exact Hbh|]. split; [exact Hgw|]. split; [lia|].
  split; [exact Hgh | lia].
Qed.

(** *** Caps below one pixel, and the sizes that avoid them *)

(** X12.  Whenever the computed cap is below one pixel (zero for a tiny
    [logo_size], negative for a negative one), a run with a readable logo
    fails and writes nothing: [thumbnail] either divides by zero or settles
    on a size that [resize] refuses. *)
Theorem cap_below_one_fails (a : Args) (fs : FS) (sym logo : Image)
    (p : string) (cap : Z) :
  symbol_of a = Ok sym ->
  logo_path a = Some p ->
  files fs !! resolve fs p = Some (ImageFile logo) ->
  1 <= width logo -> 1 <= height logo ->
  logo_max_size (width sym) (height sym) (logo_size a) = Ok cap ->
  cap < 1 ->
  exists e,
    add_logo sym logo (box_size a) (logo_size a) = Err e /\
    generate a fs = (Err e, fs).
Proof.
  intros Hsym Hlogo Hfile Hw Hh Hcap Hc.
  rewrite generate_unfold, Hsym,
    (compose_with_logo resample blend a fs sym logo p Hlogo Hfile).
  destruct (add_logo sym logo (box_size a) (logo_size a)) as [out|e] eqn:Hadd.
  - exfalso. apply add_logo_Ok in Hadd.
    destruct Hadd as (cap' & logo' & bw & bh & plate & Hcap' & Ht & _).
    rewrite Hcap in Hcap'. injection Hcap' as <-.
    pose proof (thumbnail_Ok_cap logo logo' cap Hw Hh Ht). lia.
  - exists e. split; reflexivity.
Qed.

(** X13.  On the inputs themselves: with the symbol made (sides below
    [2^52]), a logo path that names an image with sides between 1 and
    [2^26], a [logo_size] that is a double [m / B] at most 1 and at least
    one pixel of the symbol's shorter side, an output name whose writer
    accepts every image of the symbol's size, and an output file that opens
    for writing, the run completes and writes the composed image, which has
    the symbol's size. *)
Theorem run_with_logo_succeeds (a : Args) (fs : FS) (sym logo : Image)
    (p : string) (m : positive) (B : Z) (handler : Image -> result Image) :
  symbol_of a = Ok sym ->
  1 <= width sym < 2 ^ 52 -> 1 <= height sym < 2 ^ 52 ->
  logo_path a = Some p ->
  files fs !! resolve fs p = Some (ImageFile logo) ->
  1 <= width logo < 2 ^ 26 -> 1 <= height logo < 2 ^ 26 ->
  is_float (logo_size a) m B -> Z.pos m <= B ->
  B <= Z.min (width sym) (height sym) * Z.pos m ->
  save_handler (filename a) = Ok handler ->
  (forall im, size im = size sym -> is_ok (handler im) = true) ->
  open_w fs (resolve fs (filename a)) = None ->
  exists out stored,
    add_logo sym logo (box_size a) (logo_size a) = Ok out /\
    size out = size sym /\
    handler out = Ok stored /\
    generate a fs = (Ok tt, saved fs (filename a) stored).
Proof.
  intros Hsym HW HH Hlogo Hfile Hw Hh Hls Hle Hone Hhandler Haccepts Hopen.
  pose proof (symbol_box_size render a sym Hsym) as Hbox.
  assert (HB : B <= 2 ^ 110).
  { apply (is_float_B_le (logo_size a) m B
             (Z.min (width sym) (height sym)) Hls); [lia | exact Hone]. }
  destruct (logo_max_size_bounds _ _ (logo_size a) m B Hls Hle HB HW HH)
    as (cap & Hcap & _ & _ & Hc).
  destruct (add_logo_total resample blend sym logo (box_size a) (logo_size a)
              cap Hcap Hw Hh (Hc Hone) Hbox) as (out & Hadd).
  pose proof (add_logo_size resample blend _ _ _ _ _ Hadd) as Hsize.
  pose proof (Haccepts out Hsize) as Hok.
  destruct (handler out) as [stored|e] eqn:Hstored; [|discriminate Hok].
  exists out, stored.
  split; [exact Hadd|]. split; [exact Hsize|]. split; [exact Hstored|].
  rewrite generate_unfold, Hsym,
    (compose_with_logo resample blend a fs sym logo p Hlogo Hfile), Hadd.
  unfold Image_save. rewrite Hhandler. cbn zeta. now rewrite Hopen, Hstored.
Qed.

End Compositor.

(** ** The further properties at the stand-ins *)

(** The default command line with the red logo and [--filename old.jpg],
    a file that is there: the JPEG writer refuses the RGBA image after the
    file has been opened, and the old picture is gone. *)
Lemma failed_run_saves_no_image_witness :
  snd (generate_qr_code_for_link nearest over blank writers
         (mkArgs "https://example.com" "old.jpg" 4 "black" "white" 25 2
            (Some "logo.png") Float.lit_0_25) fs_with_logo)
  = fs_with_logo \/
  exists sym out handler f,
    make_symbol blank "https://example.com" 4 25 2 "black" "white" = Ok sym /\
    fst (compose nearest over
           (mkArgs "https://example.com" "old.jpg" 4 "black" "white" 25 2
              (Some "logo.png") Float.lit_0_25) sym fs_with_logo) = Ok out /\
    writers "old.jpg" = Ok handler /\ handler out = Err OSError /\
    files fs_with_logo !! resolve fs_with_logo "old.jpg" = Some f /\
    snd (generate_qr_code_for_link nearest over blank writers
           (mkArgs "https://example.com" "old.jpg" 4 "black" "white" 25 2
              (Some "logo.png") Float.lit_0_25) fs_with_logo)
    = write fs_with_logo (resolve fs_with_logo "old.jpg") OtherFile.
Proof.
  apply (failed_run_saves_no_image nearest over blank writers
           (mkArgs "https://example.com" "old.jpg" 4 "black" "white" 25 2
              (Some "logo.png") Float.lit_0_25)
           fs_with_logo _ OSError).
  vm_compute. reflexivity.
Defined.

(** The default command line with the red logo leaves the file that
    [./logo.png] names alone. *)
Lemma run_writes_only_output_witness :
  files (snd (generate_qr_code_for_link nearest over blank writers
                (default_args (Some "logo.png")) fs_with_logo))
    !! resolve (snd (generate_qr_code_for_link nearest over blank writers
                       (default_args (Some "logo.png")) fs_with_logo))
         "./logo.png"
  = files fs_with_logo !! resolve fs_with_logo "./logo.png" /\
  resolve (snd (generate_qr_code_for_link nearest over blank writers
                  (default_args (Some "logo.png")) fs_with_logo))
  = resolve fs_with_logo /\
  unwritable (snd (generate_qr_code_for_link nearest over blank writers
                     (default_args (Some "logo.png")) fs_with_logo))
  = unwritable fs_with_logo.
Proof.
  apply (run_writes_only_output nearest over blank writers
           (default_args (Some "logo.png")) fs_with_logo _
           (fst (generate_qr_code_for_link nearest over blank writers
                   (default_args (Some "logo.png")) fs_with_logo))
           "./logo.png").
  - apply surjective_pairing.
  - discriminate.
Defined.

(** [--border -1]. *)
Lemma border_rejected_witness :
  make_symbol blank "https://example.com" 4 25 (-1) "black" "white"
  = Err ValueError /\
  generate_qr_code_for_link nearest over blank writers
    (mkArgs "https://example.com" "qrcode.png" 4 "black" "white" 25 (-1)
       None Float.lit_0_25) fs_with_logo
  = (Err ValueError, fs_with_logo).
Proof.
  apply (border_rejected nearest over blank writers
           (mkArgs "https://example.com" "qrcode.png" 4 "black" "white" 25
              (-1) None Float.lit_0_25) fs_with_logo).
  - cbn. lia.
  - cbn. lia.
Defined.

(** The red logo, 500 x 200, under the cap 231. *)
Lemma downscaled_longer_edge_is_cap_witness :
  exists logo',
    thumbnail nearest red_logo 231 231 = Ok logo' /\
    Z.max (width logo') (height logo') = 231.
Proof.
  apply (downscaled_longer_edge_is_cap nearest red_logo 231).
  - change (2 ^ 26) with 67108864. cbn. lia.
  - change (2 ^ 26) with 67108864. cbn. lia.
  - lia.
  - left. cbn. lia.
Defined.

(** The default [--logo_size 0.25], the double [2^52 / 2^54], on the 925
    pixel symbol. *)
Lemma cap_within_symbol_witness :
  exists cap,
    logo_max_size 925 925 Float.lit_0_25 = Ok cap /\
    Z.min 925 925 * 4503599627370496 / 2 ^ 54 <= cap
      <= - (- (Z.min 925 925 * 4503599627370496) / 2 ^ 54) /\
    0 <= cap <= Z.min 925 925 /\
    (2 ^ 54 <= Z.min 925 925 * 4503599627370496 -> 1 <= cap).
Proof.
  apply (cap_within_symbol 925 925 Float.lit_0_25 4503599627370496 (2 ^ 54)).
  - exists (-54). repeat split; reflexivity || (vm_compute; discriminate).
  - vm_compute. discriminate.
  - vm_compute. discriminate.
  - split; [lia | reflexivity].
  - split; [lia | reflexivity].
Defined.

Lemma logo_inside_symbol_witness :
  exists cap logo',
    logo_max_size (width blank_symbol) (height blank_symbol) Float.lit_0_25
    = Ok cap /\
    thumbnail nearest red_logo cap cap = Ok logo' /\
    0 <= center (width blank_symbol) (width logo') /\
    center (width blank_symbol) (width logo') + width logo'
      <= width blank_symbol /\
    0 <= center (height blank_symbol) (height logo') /\
    center (height blank_symbol) (height logo') + height logo'
      <= height blank_symbol.
Proof.
  apply (logo_inside_symbol nearest over blank_symbol red_logo demo_out 25
           Float.lit_0_25 4503599627370496 (2 ^ 54)).
  - exists (-54). repeat split; reflexivity || (vm_compute; discriminate).
  - vm_compute. discriminate.
  - vm_compute. discriminate.
  - split; [cbn; lia | reflexivity].
  - split; [cbn; lia | reflexivity].
  - split; [cbn; lia | reflexivity].
  - split; [cbn; lia | reflexivity].
  - lia.
  - vm_compute. reflexivity.
Defined.

Lemma thumbnail_idempotent_witness :
  thumbnail nearest (mkImage 231 92 (nearest red_logo 231 92)) 231 231
  = Ok (mkImage 231 92 (nearest red_logo 231 92)).
Proof.
  apply (thumbnail_idempotent nearest red_logo
           (mkImage 231 92 (nearest red_logo 231 92)) 231).
  - split; [cbn; lia | reflexivity].
  - split; [cbn; lia | reflexivity].
  - vm_compute. reflexivity.
Defined.

Lemma logo_inside_plate_witness :
  exists cap logo' bw bh,
    logo_max_size (width blank_symbol) (height blank_symbol) Float.lit_0_25
    = Ok cap /\
    thumbnail nearest red_logo cap cap = Ok logo' /\
    bbox_dim (width logo') 25 = Ok bw /\
    bbox_dim (height logo') 25 = Ok bh /\
    center (width blank_symbol) bw <= center (width blank_symbol) (width logo') /\
    center (width blank_symbol) (width logo') + width logo'
      <= center (width blank_symbol) bw + bw /\
    center (height blank_symbol) bh
      <= center (height blank_symbol) (height logo') /\
    center (height blank_symbol) (height logo') + height logo'
      <= center (height blank_symbol) bh + bh /\
    Z.abs ((center (width blank_symbol) (width logo')
            - center (width blank_symbol) bw)
           - (center (width blank_symbol) bw + bw
              - (center (width blank_symbol) (width logo') + width logo')))
      <= 1 /\
    Z.abs ((center (height blank_symbol) (height logo')
            - center (height blank_symbol) bh)
           - (center (height blank_symbol) bh + bh
              - (center (height blank_symbol) (height logo') + height logo')))
      <= 1.
Proof.
  apply (logo_inside_plate nearest over blank_symbol red_logo demo_out 25
           Float.lit_0_25).
  - split; [cbn; lia | reflexivity].
  - split; [cbn; lia | reflexivity].
  - lia.
  - vm_compute. reflexivity.
Defined.

Lemma outside_plate_untouched_witness :
  exists cap logo' bw bh,
    logo_max_size (width blank_symbol) (height blank_symbol) Float.lit_0_25
    = Ok cap /\
    thumbnail nearest red_logo cap cap = Ok logo' /\
    bbox_dim (width logo') 25 = Ok bw /\
    bbox_dim (height logo') 25 = Ok bh /\
    forall x y,
      in_box (center (width blank_symbol) bw) (center (height blank_symbol) bh)
             bw bh x y = false ->
      px demo_out x y = px blank_symbol x y.
Proof.
  apply (outside_plate_untouched nearest over blank_symbol red_logo demo_out
           25 Float.lit_0_25).
  - split; [cbn; lia | reflexivity].
  - split; [cbn; lia | reflexivity].
  - lia.
  - vm_compute. reflexivity.
Defined.

Lemma composed_pixels_witness :
  exists cap logo' bw bh,
    logo_max_size (width blank_symbol) (height blank_symbol) Float.lit_0_25
    = Ok cap /\
    thumbnail nearest red_logo cap cap = Ok logo' /\
    bbox_dim (width logo') 25 = Ok bw /\
    bbox_dim (height logo') 25 = Ok bh /\
    width demo_out = width blank_symbol /\
    height demo_out = height blank_symbol /\
    forall x y,
      (in_box (center (width blank_symbol) (width logo'))
              (center (height blank_symbol) (height logo'))
              (width logo') (height logo') x y = true ->
       px demo_out x y
       = over (over (px blank_symbol x y) white)
              (px logo' (x - center (width blank_symbol) (width logo'))
                        (y - center (height blank_symbol) (height logo')))) /\
      (in_box (center (width blank_symbol) (width logo'))
              (center (height blank_symbol) (height logo'))
              (width logo') (height logo') x y = false ->
       in_box (center (width blank_symbol) bw) (center (height blank_symbol) bh)
              bw bh x y = true ->
       px demo_out x y = over (px blank_symbol x y) white).
Proof.
  apply (composed_pixels nearest over blank_symbol red_logo demo_out 25
           Float.lit_0_25).
  - split; [cbn; lia | reflexivity].
  - split; [cbn; lia | reflexivity].
  - lia.
  - vm_compute. reflexivity.
Defined.

Lemma plate_bounded_by_cap_witness :
  exists cap logo' bw bh,
    logo_max_size (width blank_symbol) (height blank_symbol) Float.lit_0_25
    = Ok cap /\
    thumbnail nearest red_logo cap cap = Ok logo' /\
    bbox_dim (width logo') 25 = Ok bw /\
    bbox_dim (height logo') 25 = Ok bh /\
    width logo' < bw /\ 20 * bw <= 21 * cap + 20 * 25 /\
    height logo' < bh /\ 20 * bh <= 21 * cap + 20 * 25.
Proof.
  apply (plate_bounded_by_cap nearest over blank_symbol red_logo demo_out 25
           Float.lit_0_25).
  - split; [cbn; lia | reflexivity].
  - split; [cbn; lia | reflexivity].
  - lia.
  - vm_compute. reflexivity.
Defined.

(** [--logo_size 0.001] on the 925 pixel symbol: the cap is 0. *)
Lemma cap_below_one_fails_witness :
  exists e,
    add_logo nearest over blank_symbol red_logo 25 lit_0_001 = Err e /\
    generate_qr_code_for_link nearest over blank writers
      (mkArgs "https://example.com" "qrcode.png" 4 "black" "white" 25 2
         (Some "logo.png") lit_0_001) fs_with_logo
    = (Err e, fs_with_logo).
Proof.
  apply (cap_below_one_fails nearest over blank writers
           (mkArgs "https://example.com" "qrcode.png" 4 "black" "white" 25 2
              (Some "logo.png") lit_0_001)
           fs_with_logo blank_symbol red_logo "logo.png" 0).
  - reflexivity.
  - reflexivity.
  - vm_compute. reflexivity.
  - cbn. lia.
  - cbn. lia.
  - vm_compute. reflexivity.
  - lia.
Defined.

(** The default command line with the red logo. *)
Lemma run_with_logo_succeeds_witness :
  exists out stored,
    add_logo nearest over blank_symbol red_logo 25 Float.lit_0_25 = Ok out /\
    size out = size blank_symbol /\
    Ok out = Ok stored /\
    generate_qr_code_for_link nearest over blank writers
      (default_args (Some "logo.png")) fs_with_logo
    = (Ok tt, saved fs_with_logo "qrcode.png" stored).
Proof.
  apply (run_with_logo_succeeds nearest over blank writers
           (default_args (Some "logo.png")) fs_with_logo blank_symbol red_logo
           "logo.png" 4503599627370496 (2 ^ 54) (fun im => Ok im)).
  - reflexivity.
  - split; [cbn; lia | reflexivity].
  - split; [cbn; lia | reflexivity].
  - reflexivity.
  - vm_compute. reflexivity.
  - split; [cbn; lia | reflexivity].
  - split; [cbn; lia | reflexivity].
  - exists (-54). repeat split; reflexivity || (vm_compute; discriminate).
  - vm_compute. discriminate.
  - vm_compute. discriminate.
  - reflexivity.
  - intros im _. reflexivity.
  - vm_compute. reflexivity.
Defined.
